(** * modmesh: the call profiler and the checked access of the buffer expander

    A shallow embedding of
      - cpp/modmesh/toggle/callprofiler.hpp   (CallerProfile, CallerInfo,
        CallProfiler), and
      - cpp/modmesh/buffer/BufferExpander.hpp (size, data, validate_range, at),
    followed by the properties of the call-path profiler that the design
    document states.

    Conventions.
      - A member function is a function of the object's state.  Its result is
        an [outcome]: it returns (with the new state), it throws (with the
        state the object is left in), or its behaviour is undefined, as when
        [top()] is taken of an empty [std::stack].
      - [std::chrono::high_resolution_clock::now()] is an input: every
        operation that reads the clock takes the reading as an argument.
      - The output stream is the text written to it so far. *)

From Stdlib Require Import ZArith List String Ascii Lia Bool DecimalString.
Import ListNotations.

Local Open Scope Z_scope.
Local Open Scope string_scope.

(* ================================================================== *)
(** * Outcomes of member functions *)

(** The exceptions that the two headers can raise. *)
Inductive exception : Type :=
| out_of_range (what : string)   (* std::out_of_range *)
| unbalanced_call.               (* cursor retraction past the root *)

Inductive outcome (S A : Type) : Type :=
| Returns (a : A) (s : S)
| Throws (e : exception) (s : S)
| Undefined.

Arguments Returns {S A} a s.
Arguments Throws {S A} e s.
Arguments Undefined {S A}.

(** A member function of an object with state [S] that yields an [A]. *)
Definition M (S A : Type) : Type := S -> outcome S A.

Definition ret {S A} (a : A) : M S A := fun s => Returns a s.

Definition bind {S A B} (m : M S A) (k : A -> M S B) : M S B :=
  fun s =>
    match m s with
    | Returns a s' => k a s'
    | Throws e s' => Throws e s'
    | Undefined => Undefined
    end.

Declare Scope member_scope.
Delimit Scope member_scope with member.
Notation "x <- m ;; k" := (bind m (fun x => k))
  (at level 61, m at next level, right associativity) : member_scope.
Notation "m ;;; k" := (bind m (fun _ => k))
  (at level 61, right associativity) : member_scope.

(** Runs a member function of a sub-object inside the enclosing object. *)
Definition on_member {S T A} (get : S -> T) (set : T -> S -> S)
  (m : M T A) : M S A :=
  fun s =>
    match m (get s) with
    | Returns a t => Returns a (set t s)
    | Throws e t => Throws e (set t s)
    | Undefined => Undefined
    end.

(* ================================================================== *)
(** * Machine integers and std::chrono values *)

(** [int] is 32 bits wide on every platform modmesh builds for.  The standard
    leaves signed overflow undefined; the model takes the two's-complement
    result that the increment produces on those platforms. *)
Definition INT_MAX : Z := 2147483647.
Definition INT_MIN : Z := -2147483648.

Definition wrap_int (z : Z) : Z :=
  (z + 2147483648) mod 4294967296 - 2147483648.

(** [std::size_t] is 64 bits wide; unsigned arithmetic wraps. *)
Definition SIZE_WIDTH : Z := 18446744073709551616.

Definition wrap_size_t (z : Z) : Z := z mod SIZE_WIDTH.

(** A [time_point] of the high-resolution clock and a duration are tick
    counts.  The representation type of the std::chrono values is chosen by the
    standard library (a signed integer of 64 bits for the clocks in use).
    Readings of a clock and their sums stay centuries away from the ends of
    that type, whereas a counter of calls reaches the end of [int] within
    minutes; so the tick counts are kept in [Z], and they agree with the
    program as long as its arithmetic on them does not overflow.  The tick of
    the clock is the nanosecond. *)
Definition time_point : Type := Z.
Definition nanoseconds : Type := Z.
Definition milliseconds : Type := Z.

Definition ticks_per_millisecond : Z := 1000000.

(** [std::chrono::duration_cast<std::chrono::milliseconds>]: integer division
    of the tick count, truncating toward zero. *)
Definition duration_cast_milliseconds (d : nanoseconds) : milliseconds :=
  Z.quot d ticks_per_millisecond.

(* ================================================================== *)
(** * The payload and the stack entry (callprofiler.hpp, lines 12-24) *)

Record CallerProfile : Type := mkCallerProfile {
  callerName : string;
  totalTime : milliseconds;
  callCount : Z    (* int *)
}.

Record CallerInfo : Type := mkCallerInfo {
  info_callerName : string;
  startTime : time_point
}.

(** Modelled from the spec: RadixTree.hpp is not part of the sources at hand,
    so the payload of a newly created node is the "empty payload" of the design
    document, whose cumulative time is zero.  [callCount] is zero by the
    member initializer of the struct and the name is the empty string; the
    struct itself gives [totalTime] no initializer. *)
Definition empty_profile : CallerProfile :=
  {| callerName := ""; totalTime := 0; callCount := 0 |}.

(* ================================================================== *)
(** * The calling-context tree *)

(** Modelled from the spec: RadixTree.hpp (RadixTreeNode and RadixTree) is not
    part of the sources at hand.  A node has an identifying name, a payload and
    its children in the order of their creation. *)
#[local] Unset Elimination Schemes.
Inductive RadixTreeNode : Type :=
| mkNode (m_name : string) (m_data : CallerProfile)
         (m_children : list RadixTreeNode).
#[local] Set Elimination Schemes.

Definition name (n : RadixTreeNode) : string :=
  match n with mkNode nm _ _ => nm end.

Definition data (n : RadixTreeNode) : CallerProfile :=
  match n with mkNode _ d _ => d end.

Definition children (n : RadixTreeNode) : list RadixTreeNode :=
  match n with mkNode _ _ cs => cs end.

(** Induction on a node with the property known for each of its children. *)
Section NodeInduction.
Variable P : RadixTreeNode -> Prop.
Hypothesis step :
  forall nm d cs, Forall P cs -> P (mkNode nm d cs).

Fixpoint RadixTreeNode_ind (n : RadixTreeNode) : P n :=
  match n with
  | mkNode nm d cs =>
      step nm d cs
        ((fix all (l : list RadixTreeNode) : Forall P l :=
            match l with
            | [] => Forall_nil P
            | c :: l' => Forall_cons c (RadixTreeNode_ind c) (all l')
            end) cs)
  end.
End NodeInduction.

(** Modelled from the spec: the tree owns one root; the cursor designates one
    of its nodes.  A node is designated by the names met on the way down from
    the root (a name is unique among the children of one parent), so that the
    parent back-reference of the design document is the path without its last
    name. *)
Record RadixTree : Type := mkRadixTree {
  m_root : RadixTreeNode;
  m_current_node : list string
}.

Definition root_node : RadixTreeNode := mkNode "" empty_profile [].

(** A freshly constructed tree: a bare root, the cursor on it. *)
Definition new_tree : RadixTree :=
  {| m_root := root_node; m_current_node := [] |}.

(** The first child that carries the name. *)
Fixpoint get_child (nm : string) (cs : list RadixTreeNode)
  : option RadixTreeNode :=
  match cs with
  | [] => None
  | c :: cs' => if String.eqb (name c) nm then Some c else get_child nm cs'
  end.

(** The node that a path of names leads to. *)
Fixpoint node_at (path : list string) (n : RadixTreeNode)
  : option RadixTreeNode :=
  match path with
  | [] => Some n
  | nm :: path' =>
      match get_child nm (children n) with
      | Some c => node_at path' c
      | None => None
      end
  end.

(** Applies [f] to the first child that carries the name. *)
Fixpoint update_child (nm : string) (f : RadixTreeNode -> RadixTreeNode)
  (cs : list RadixTreeNode) : list RadixTreeNode :=
  match cs with
  | [] => []
  | c :: cs' =>
      if String.eqb (name c) nm then f c :: cs'
      else c :: update_child nm f cs'
  end.

(** Applies [f] to the node that a path leads to: a write through a pointer
    to that node. *)
Fixpoint update_at (path : list string) (f : RadixTreeNode -> RadixTreeNode)
  (n : RadixTreeNode) : RadixTreeNode :=
  match path with
  | [] => f n
  | nm :: path' =>
      mkNode (name n) (data n)
        (update_child nm (update_at path' f) (children n))
  end.

Definition add_child (nm : string) (n : RadixTreeNode) : RadixTreeNode :=
  mkNode (name n) (data n) (children n ++ [mkNode nm empty_profile []]).

Definition set_data (d : CallerProfile) (n : RadixTreeNode) : RadixTreeNode :=
  mkNode (name n) d (children n).

(** Modelled from the spec: [get_current_node()] returns the node at the
    cursor.  A cursor that designates no node of the tree is a dangling
    pointer. *)
Definition get_current_node : M RadixTree RadixTreeNode :=
  fun t =>
    match node_at (m_current_node t) (m_root t) with
    | Some n => Returns n t
    | None => Undefined
    end.

(** Modelled from the spec: [entry(name)] finds the child of the current node
    with the given name, creates it (empty payload, name set) when absent, and
    moves the cursor to that child.  It always succeeds. *)
Definition entry (nm : string) : M RadixTree unit :=
  (cur <- get_current_node ;;
   fun t =>
     let root' :=
       match get_child nm (children cur) with
       | Some _ => m_root t
       | None => update_at (m_current_node t) (add_child nm) (m_root t)
       end in
     Returns tt {| m_root := root';
                   m_current_node := m_current_node t ++ [nm] |}
  )%member.

(** Modelled from the spec: [move_current_to_parent()] moves the cursor to the
    parent of the current node; with the cursor on the root it is the
    unbalanced use of the design document's error taxonomy. *)
Definition move_current_to_parent : M RadixTree unit :=
  fun t =>
    match m_current_node t with
    | [] => Throws unbalanced_call t
    | _ :: _ =>
        Returns tt {| m_root := m_root t;
                      m_current_node := removelast (m_current_node t) |}
    end.

(** Modelled from the spec: [reset()] discards every node except a freshly
    constructed root and returns the cursor to it. *)
Definition tree_reset : M RadixTree unit :=
  fun _ => Returns tt new_tree.

(** The write through the reference that [get_current_node()->data()] yields
    (callprofiler.hpp, lines 54-59): the payload of the current node becomes
    [f] of what it was. *)
Definition update_current_data (f : CallerProfile -> CallerProfile)
  : M RadixTree unit :=
  (_ <- get_current_node ;;
   fun t =>
     Returns tt {| m_root := update_at (m_current_node t)
                               (fun n => set_data (f (data n)) n) (m_root t);
                   m_current_node := m_current_node t |}
  )%member.

(* ================================================================== *)
(** * std::stack<CallerInfo> *)

(** The top of the stack is the head of the list. *)
Definition call_stack : Type := list CallerInfo.

Definition push (ci : CallerInfo) : M call_stack unit :=
  fun s => Returns tt (ci :: s).

(** [top()] and [pop()] of an empty stack have undefined behaviour. *)
Definition top : M call_stack CallerInfo :=
  fun s =>
    match s with
    | ci :: _ => Returns ci s
    | [] => Undefined
    end.

Definition pop : M call_stack unit :=
  fun s =>
    match s with
    | _ :: s' => Returns tt s'
    | [] => Undefined
    end.

Definition empty (s : call_stack) : bool :=
  match s with
  | [] => true
  | _ :: _ => false
  end.

(* ================================================================== *)
(** * CallProfiler (callprofiler.hpp, lines 27-112) *)

Record CallProfiler : Type := mkCallProfiler {
  m_callStack : call_stack;
  m_radixTree : RadixTree
}.

(** The cursor and the root of the profiler's tree. *)
Abbreviation cursor_of p := (m_current_node (m_radixTree p)).
Abbreviation root_of p := (m_root (m_radixTree p)).

(** The state of the singleton when [instance()] constructs it. *)
Definition new_profiler : CallProfiler :=
  {| m_callStack := []; m_radixTree := new_tree |}.

Definition on_stack {A} (m : M call_stack A) : M CallProfiler A :=
  on_member m_callStack
    (fun s p => {| m_callStack := s; m_radixTree := m_radixTree p |}) m.

Definition on_tree {A} (m : M RadixTree A) : M CallProfiler A :=
  on_member m_radixTree
    (fun t p => {| m_callStack := m_callStack p; m_radixTree := t |}) m.

(** [start_caller] (lines 38-43); [now] is the clock reading of line 40. *)
Definition start_caller (now : time_point) (callerName : string)
  : M CallProfiler unit :=
  (let startTime := now in
   on_stack
     (push {| info_callerName := callerName; startTime := startTime |}) ;;;
   on_tree (entry callerName))%member.

(** The three assignments of lines 57-59. *)
Definition update_profile (elapsedTime : milliseconds) (callerName : string)
  (callProfile : CallerProfile) : CallerProfile :=
  {| callerName := callerName;
     totalTime := totalTime callProfile + elapsedTime;
     callCount := wrap_int (callCount callProfile + 1) |}.

(** [end_caller] (lines 46-64); [now] is the clock reading of line 48. *)
Definition end_caller (now : time_point) : M CallProfiler unit :=
  (let endTime := now in
   top_info <- on_stack top ;;
   let elapsedTime :=
     duration_cast_milliseconds (endTime - startTime top_info) in
   let callerName := info_callerName top_info in
   on_tree (update_current_data (update_profile elapsedTime callerName)) ;;;
   on_stack pop ;;;
   on_tree move_current_to_parent)%member.

(** The loop of lines 75-78: pop while the stack is not empty. *)
Fixpoint pop_while_not_empty (s : call_stack) : call_stack :=
  match s with
  | [] => []
  | _ :: s' => pop_while_not_empty s'
  end.

(** [reset] (lines 73-80). *)
Definition reset : M CallProfiler unit :=
  (on_stack (fun s => Returns tt (pop_while_not_empty s)) ;;;
   on_tree tree_reset)%member.

(* ------------------------------------------------------------------ *)
(** ** The report (lines 67-70 and 85-107) *)

(** The text written to the stream so far. *)
Definition ostream : Type := string.

(** [std::endl]: a newline (the flush has no effect on the text). *)
Definition endl : string := String (ascii_of_nat 10) EmptyString.

(** [operator<<] for an integer: its decimal digits, with a minus sign when
    negative. *)
Definition decimal (z : Z) : string := NilZero.string_of_int (Z.to_int z).

(** The loop of lines 87-90. *)
Fixpoint write_indent (depth : nat) (outstream : ostream) : ostream :=
  match depth with
  | O => outstream
  | S d => write_indent d (outstream ++ "  ")
  end.

(** The text of line 100, up to [std::endl]. *)
Definition profile_text (profile : CallerProfile) : string :=
  callerName profile ++ " - Total Time: " ++ decimal (totalTime profile)
    ++ " ms, Call Count: " ++ decimal (callCount profile).

(** [_print_profiling_result] (lines 85-107). *)
Fixpoint _print_profiling_result (node : RadixTreeNode) (depth : nat)
  (outstream : ostream) {struct node} : ostream :=
  match node with
  | mkNode _ profile node_children =>
      let outstream := write_indent depth outstream in
      let outstream :=
        match depth with
        | O => outstream ++ "Profiling Result" ++ endl
        | S _ => outstream ++ profile_text profile ++ endl
        end in
      (fix each_child (cs : list RadixTreeNode) (outstream : ostream)
         : ostream :=
         match cs with
         | [] => outstream
         | child :: cs' =>
             each_child cs' (_print_profiling_result child (S depth) outstream)
         end) node_children outstream
  end.

(** [print_profiling_result] (lines 67-70): the traversal starts at the node
    that [get_current_node()] yields. *)
Definition print_profiling_result (p : CallProfiler) : M ostream unit :=
  fun outstream =>
    match get_current_node (m_radixTree p) with
    | Returns node _ => Returns tt (_print_profiling_result node 0 outstream)
    | Throws e _ => Throws e outstream
    | Undefined => Undefined
    end.

(* ================================================================== *)
(** * BufferExpander: size and checked access (BufferExpander.hpp) *)

(** The three pointers are addresses; [storage] is the content of the block
    that starts at [m_begin], one [int8_t] per element. *)
Record BufferExpander : Type := mkBufferExpander {
  storage : list Z;
  m_begin : Z;
  m_end : Z;
  m_end_cap : Z
}.

(** [size()] (lines 94-97): the pointer difference converted to [size_t]. *)
Definition size (b : BufferExpander) : Z :=
  wrap_size_t (m_end b - m_begin b).

(** [capacity()] (lines 99-102). *)
Definition capacity (b : BufferExpander) : Z :=
  wrap_size_t (m_end_cap b - m_begin b).

(** [data(it)] (line 131): [data()[it]], a read of the block; outside of the
    block its behaviour is undefined. *)
Definition data_at (it : Z) : M BufferExpander Z :=
  fun b =>
    match nth_error (storage b) (Z.to_nat it) with
    | Some v => Returns v b
    | None => Undefined
    end.

(** The text that [Formatter] assembles on line 148. *)
Definition out_of_bounds_message (it sz : Z) : string :=
  "BufferExpander: index " ++ decimal it
    ++ " is out of bounds with size " ++ decimal sz.

(** [validate_range] (lines 144-150). *)
Definition validate_range (it : Z) : M BufferExpander unit :=
  fun b =>
    if (size b <=? it)%Z
    then Throws (out_of_range (out_of_bounds_message it (size b))) b
    else Returns tt b.

(** [at] (lines 119-123). *)
Definition at_ (it : Z) : M BufferExpander Z :=
  (validate_range it ;;; data_at it)%member.

(** The invariant of the three pointers: the block spans
    [m_begin .. m_end_cap) and the logical end lies inside it. *)
Definition buffer_wf (b : BufferExpander) : Prop :=
  0 <= m_begin b /\ m_begin b <= m_end b /\ m_end b <= m_end_cap b /\
  m_end_cap b < SIZE_WIDTH /\
  Z.of_nat (List.length (storage b)) = m_end_cap b - m_begin b.

(* ================================================================== *)
(** * Sequences of calls made by the host code *)

Inductive call : Type :=
| CStart (now : time_point) (callerName : string)
| CEnd (now : time_point).

Definition do_call (c : call) : M CallProfiler unit :=
  match c with
  | CStart now callerName => start_caller now callerName
  | CEnd now => end_caller now
  end.

Fixpoint run (cs : list call) : M CallProfiler unit :=
  match cs with
  | [] => ret tt
  | c :: cs' => (do_call c ;;; run cs')%member
  end.

(** The number of starts still unmatched after [cs], when [pending] were
    unmatched before it; [None] when some end has no start to match. *)
Fixpoint unmatched (cs : list call) (pending : nat) : option nat :=
  match cs with
  | [] => Some pending
  | CStart _ _ :: cs' => unmatched cs' (S pending)
  | CEnd _ :: cs' =>
      match pending with
      | O => None
      | S k => unmatched cs' k
      end
  end.

(** A balanced sequence: every end matches the most recent unmatched start and
    no start is left unmatched. *)
Definition balanced (cs : list call) : Prop := unmatched cs 0 = Some 0%nat.

(** Repeated balanced pairs on one name; each pair comes with the clock
    readings of its start and of its end. *)
Fixpoint repeated_pairs (nm : string) (times : list (time_point * time_point))
  : list call :=
  match times with
  | [] => []
  | (t0, t1) :: times' =>
      CStart t0 nm :: CEnd t1 :: repeated_pairs nm times'
  end.

(** The milliseconds that the pairs add up to: each elapsed time is cast on its
    own. *)
Fixpoint elapsed_sum (times : list (time_point * time_point)) : milliseconds :=
  match times with
  | [] => 0
  | (t0, t1) :: times' =>
      duration_cast_milliseconds (t1 - t0) + elapsed_sum times'
  end.

(** The payload found at a path of the profiler's tree. *)
Definition profile_at (path : list string) (p : CallProfiler)
  : option CallerProfile :=
  option_map data (node_at path (root_of p)).

(** The cursor designates a node of the tree. *)
Definition cursor_valid (p : CallProfiler) : Prop :=
  exists cur,
    node_at (cursor_of p) (root_of p) = Some cur.

(** Stack and cursor in lock-step: the names on the stack, oldest first, are
    the names on the way from the root to the cursor. *)
Definition lock_step (p : CallProfiler) : Prop :=
  map info_callerName (rev (m_callStack p)) = cursor_of p.

(* ------------------------------------------------------------------ *)
(** ** The report as the design document words it *)

(** Depth-first pre-order: a node, then the subtrees of its children in their
    order, each node with its depth. *)
Fixpoint preorder (n : RadixTreeNode) (depth : nat)
  : list (nat * RadixTreeNode) :=
  match n with
  | mkNode _ _ cs =>
      (depth, n) :: flat_map (fun c => preorder c (S depth)) cs
  end.

(** Two spaces per level. *)
Fixpoint indentation (depth : nat) : string :=
  match depth with
  | O => ""
  | S d => "  " ++ indentation d
  end.

(** The line of one node: the fixed header at depth 0; below it the
    indentation, the caller name, the cumulative time in milliseconds and the
    invocation count. *)
Definition report_line (entry : nat * RadixTreeNode) : string :=
  match fst entry with
  | O => "Profiling Result" ++ endl
  | S _ => indentation (fst entry) ++ profile_text (data (snd entry)) ++ endl
  end.

Definition concat_lines (ls : list string) : string :=
  fold_right String.append "" ls.

(** The report of the subtree of [n], [n] itself at depth 0. *)
Definition spec_report (n : RadixTreeNode) : string :=
  concat_lines (map report_line (preorder n 0)).

(** The traversal of the design document: from the root of the tree. *)
Definition spec_print_profiling_result (p : CallProfiler) : M ostream unit :=
  fun outstream =>
    Returns tt (outstream ++ spec_report (root_of p)).

(** The number of nodes of a subtree. *)
Fixpoint node_count (n : RadixTreeNode) : nat :=
  match n with
  | mkNode _ _ cs => S (fold_right (fun c k => (node_count c + k)%nat) O cs)
  end.

(* ------------------------------------------------------------------ *)
(** ** The effect of single calls, in closed form *)

(** The tree that [entry] leaves behind. *)
Definition entered_root (nm : string) (cur : RadixTreeNode) (t : RadixTree)
  : RadixTreeNode :=
  match get_child nm (children cur) with
  | Some _ => m_root t
  | None => update_at (m_current_node t) (add_child nm) (m_root t)
  end.

(** The child that [entry] moves the cursor to: the one found, or the one
    created. *)
Definition entered_child (nm : string) (cur : RadixTreeNode) : RadixTreeNode :=
  match get_child nm (children cur) with
  | Some c => c
  | None => mkNode nm empty_profile []
  end.

(** The payload update of lines 57-59, as a write to a node. *)
Definition completed (now : time_point) (top_info : CallerInfo)
  (n : RadixTreeNode) : RadixTreeNode :=
  set_data
    (update_profile
       (duration_cast_milliseconds (now - startTime top_info))
       (info_callerName top_info) (data n)) n.

(** The payload of a node after the pairs of [times] have completed against
    it, one after the other. *)
Fixpoint after_pairs (nm : string) (times : list (time_point * time_point))
  (d : CallerProfile) : CallerProfile :=
  match times with
  | [] => d
  | (t0, t1) :: times' =>
      after_pairs nm times'
        (update_profile (duration_cast_milliseconds (t1 - t0)) nm d)
  end.

(** The invariant of the profiler: the cursor designates a node, and stack and
    cursor are in lock-step. *)
Definition consistent (p : CallProfiler) : Prop :=
  cursor_valid p /\ lock_step p.

(** [path] lies strictly below [base] in the tree. *)
Definition below (base path : list string) : Prop :=
  exists ext, ext <> [] /\ path = (base ++ ext)%list.

(** Every node of [r] is still in place in [r'], with its name and payload. *)
Definition payloads_kept (r r' : RadixTreeNode) : Prop :=
  forall path c, node_at path r = Some c ->
    exists c', node_at path r' = Some c' /\ name c' = name c /\
               data c' = data c.

(** The same for the nodes that do not lie strictly below [base]. *)
Definition payloads_kept_outside (base : list string) (r r' : RadixTreeNode)
  : Prop :=
  forall path c, ~ below base path -> node_at path r = Some c ->
    exists c', node_at path r' = Some c' /\ name c' = name c /\
               data c' = data c.

(* ================================================================== *)
(** * Further members of BufferExpander *)

(** [operator[]] of the const object (line 116): [data(it)], with no check of
    the range. *)
Definition subscript (it : Z) : M BufferExpander Z := data_at it.

(** The list with the element at position [n] replaced by [v]; a list without
    such a position is left as it is. *)
Fixpoint list_store {A : Type} (n : nat) (v : A) (l : list A) : list A :=
  match l, n with
  | [], _ => []
  | _ :: l', O => v :: l'
  | x :: l', S k => x :: list_store k v l'
  end.

(** The conversion of an integer to [int8_t]: the value of -128 .. 127 that
    differs from it by a multiple of 2^8. *)
Definition to_int8 (z : Z) : Z := (z + 128) mod 256 - 128.

(** An assignment through the reference that the non-const [data(it)]
    (line 132) yields, [data()[it] = v]: a write into the block of the value
    converted to [int8_t], the type of the element; outside of the block its
    behaviour is undefined. *)
Definition data_assign (it v : Z) : M BufferExpander unit :=
  fun b =>
    match nth_error (storage b) (Z.to_nat it) with
    | Some _ =>
        Returns tt {| storage :=
                        list_store (Z.to_nat it) (to_int8 v) (storage b);
                      m_begin := m_begin b;
                      m_end := m_end b;
                      m_end_cap := m_end_cap b |}
    | None => Undefined
    end.

(** [b[it] = v] with the non-const [operator[]] (line 117). *)
Definition subscript_assign (it v : Z) : M BufferExpander unit :=
  data_assign it v.

(** [b.at(it) = v] with the non-const [at] (lines 124-128): the range is
    validated before the reference is handed out. *)
Definition at_assign (it v : Z) : M BufferExpander unit :=
  (validate_range it ;;; data_assign it v)%member.

(** The members as their default initializers leave them (lines 162-167), which
    is the object that [BufferExpander(ctor_passkey const &)] (line 85)
    constructs: no block, three null pointers. *)
Definition null_buffer : BufferExpander :=
  {| storage := []; m_begin := 0; m_end := 0; m_end_cap := 0 |}.

Section Expand.
(** [reserve] (line 104) is declared in the header and defined elsewhere; it
    is a parameter here. *)
Variable reserve : Z -> M BufferExpander unit.

(** [expand] (lines 106-110). *)
Definition expand (length : Z) : M BufferExpander unit :=
  (reserve length ;;;
   fun b => Returns tt {| storage := storage b;
                          m_begin := m_begin b;
                          m_end := m_begin b + length;
                          m_end_cap := m_end_cap b |})%member.

(** [BufferExpander(size_type nbyte, ctor_passkey const &)] (lines 80-83):
    [expand(nbyte)] on the default-initialized members. *)
Definition construct_nbyte (nbyte : Z) : outcome BufferExpander unit :=
  expand nbyte null_buffer.
End Expand.

(* ================================================================== *)
(** * CallProfilerProbe (callprofiler.hpp, lines 115-131) *)

(** The stack that a sequence of calls leaves behind, when it starts on the
    stack [stack]: a start pushes its name and clock reading (line 41), an end
    pops (line 62); [None] when an end finds the stack empty. *)
Fixpoint pending_calls (cs : list call) (stack : call_stack)
  : option call_stack :=
  match cs with
  | [] => Some stack
  | CStart now nm :: cs' =>
      pending_calls cs' ({| info_callerName := nm; startTime := now |} :: stack)
  | CEnd _ :: cs' =>
      match stack with
      | [] => None
      | _ :: rest => pending_calls cs' rest
      end
  end.

(** A block that holds a [CallProfilerProbe]: the constructor runs when the
    block is entered, the destructor when it is left, the probes of the blocks
    inside run in between.  The two clock readings are those of the calls that
    constructor and destructor make. *)
#[local] Unset Elimination Schemes.
Inductive probe_scope : Type :=
| Probe (callerName : string) (t_constructed t_destroyed : time_point)
        (body : list probe_scope).
#[local] Set Elimination Schemes.

Section ProbeScopeInduction.
Variable P : probe_scope -> Prop.
Hypothesis step :
  forall nm t0 t1 body, Forall P body -> P (Probe nm t0 t1 body).

Fixpoint probe_scope_ind (s : probe_scope) : P s :=
  match s with
  | Probe nm t0 t1 body =>
      step nm t0 t1 body
        ((fix all (l : list probe_scope) : Forall P l :=
            match l with
            | [] => Forall_nil P
            | c :: l' => Forall_cons c (probe_scope_ind c) (all l')
            end) body)
  end.
End ProbeScopeInduction.

(** The calls that a block makes on the profiler: [start_caller] from the
    constructor (line 121), the calls of the blocks inside, [end_caller] from
    the destructor (line 126). *)
Fixpoint probe_calls (s : probe_scope) : list call :=
  match s with
  | Probe nm t0 t1 body =>
      CStart t0 nm :: (flat_map probe_calls body ++ [CEnd t1])%list
  end.

(* ------------------------------------------------------------------ *)
(** ** Payload names and node names *)

(** [P] holds of every element of the list. *)
Definition all_in {A : Type} (P : A -> Prop) (l : list A) : Prop :=
  fold_right (fun x rest => P x /\ rest) True l.

(** In the subtree of [n], [n] included, every payload carries the name of its
    node. *)
Fixpoint named (n : RadixTreeNode) : Prop :=
  match n with
  | mkNode nm d cs => callerName d = nm /\ all_in (fun c => named c) cs
  end.

(** Among the children [cs], the first one called [x] satisfies [P] and the
    subtrees of all the others are [named]. *)
Fixpoint kids_named (x : string) (P : RadixTreeNode -> Prop)
  (cs : list RadixTreeNode) : Prop :=
  match cs with
  | [] => True
  | c :: cs' =>
      if String.eqb (name c) x
      then P c /\ all_in named cs'
      else named c /\ kids_named x P cs'
  end.

(** Every subtree that hangs off the path from [n] down to the node at
    [path], and every subtree below that node, is [named]; nothing is said of
    the payloads of the nodes on the path themselves. *)
Fixpoint named_off_path (path : list string) (n : RadixTreeNode) : Prop :=
  match path with
  | [] => all_in named (children n)
  | x :: path' => kids_named x (named_off_path path') (children n)
  end.

(* ------------------------------------------------------------------ *)
(** ** Clock readings in order *)

(** The clock reading that a call takes (lines 40 and 48). *)
Definition reading (c : call) : time_point :=
  match c with
  | CStart now _ => now
  | CEnd now => now
  end.

(** No call of the sequence reads the clock earlier than the call before it,
    the first one not earlier than [last]. *)
Fixpoint readings_ordered (cs : list call) (last : time_point) : Prop :=
  match cs with
  | [] => True
  | c :: cs' => last <= reading c /\ readings_ordered cs' (reading c)
  end.

(** Every payload of the subtree of [n], that of [n] included, satisfies
    [Q]. *)
Fixpoint every_payload (Q : CallerProfile -> Prop) (n : RadixTreeNode)
  : Prop :=
  match n with
  | mkNode _ d cs => Q d /\ all_in (fun c => every_payload Q c) cs
  end.

(* ================================================================== *)
(** * Properties *)

(* ------------------------------------------------------------------ *)
(** ** Text *)

Lemma append_assoc (a b c : string) : (a ++ b) ++ c = a ++ (b ++ c).
Proof.
  induction a as [|ch a IH]; simpl; [reflexivity | now rewrite IH].
Qed.

Lemma append_empty_r (a : string) : a ++ "" = a.
Proof.
  induction a as [|ch a IH]; simpl; [reflexivity | now rewrite IH].
Qed.

Lemma write_indent_indentation (depth : nat) (os : ostream) :
  write_indent depth os = os ++ indentation depth.
Proof.
  revert os; induction depth as [|d IH]; intros os; simpl.
  - now rewrite append_empty_r.
  - now rewrite IH, append_assoc.
Qed.

Lemma concat_lines_app (xs ys : list string) :
  concat_lines (xs ++ ys) = concat_lines xs ++ concat_lines ys.
Proof.
  induction xs as [|x xs IH]; simpl; [reflexivity|].
  now rewrite IH, append_assoc.
Qed.

(* ------------------------------------------------------------------ *)
(** ** Machine integers *)

Lemma wrap_int_in_range (z : Z) : INT_MIN <= z <= INT_MAX -> wrap_int z = z.
Proof.
  unfold wrap_int, INT_MIN, INT_MAX; intros H.
  rewrite Z.mod_small by lia; lia.
Qed.

Lemma wrap_int_plus (a b : Z) : wrap_int (wrap_int a + b) = wrap_int (a + b).
Proof.
  unfold wrap_int.
  replace ((a + 2147483648) mod 4294967296 - 2147483648 + b + 2147483648)
    with ((a + 2147483648) mod 4294967296 + b) by lia.
  rewrite Zplus_mod_idemp_l.
  now replace (a + 2147483648 + b) with (a + b + 2147483648) by lia.
Qed.

(* ------------------------------------------------------------------ *)
(** ** The tree: lookups and writes along a path *)

Lemma get_child_app_some (nm : string) (cs more : list RadixTreeNode)
  (c : RadixTreeNode) :
  get_child nm cs = Some c -> get_child nm (cs ++ more)%list = Some c.
Proof.
  induction cs as [|x cs IH]; simpl; [discriminate|].
  destruct (String.eqb (name x) nm); auto.
Qed.

Lemma get_child_app_none (nm : string) (cs more : list RadixTreeNode) :
  get_child nm cs = None -> get_child nm (cs ++ more)%list = get_child nm more.
Proof.
  induction cs as [|x cs IH]; simpl; [reflexivity|].
  destruct (String.eqb (name x) nm); [discriminate | auto].
Qed.

Section UpdateChild.
Variable g : RadixTreeNode -> RadixTreeNode.
Hypothesis g_name : forall x, name (g x) = name x.

Lemma get_child_update_same (nm : string) (cs : list RadixTreeNode) :
  get_child nm (update_child nm g cs) = option_map g (get_child nm cs).
Proof.
  induction cs as [|x cs IH]; simpl; [reflexivity|].
  destruct (String.eqb (name x) nm) eqn:E; simpl.
  - now rewrite g_name, E.
  - now rewrite E.
Qed.

Lemma get_child_update_other (nm nm' : string) (cs : list RadixTreeNode) :
  nm <> nm' ->
  get_child nm' (update_child nm g cs) = get_child nm' cs.
Proof.
  intros Hne.
  induction cs as [|x cs IH]; simpl; [reflexivity|].
  destruct (String.eqb (name x) nm) eqn:E; simpl.
  - rewrite g_name.
    apply String.eqb_eq in E.
    destruct (String.eqb (name x) nm') eqn:E'; [|reflexivity].
    apply String.eqb_eq in E'. congruence.
  - now rewrite IH.
Qed.
End UpdateChild.

Section UpdateAt.
Variable f : RadixTreeNode -> RadixTreeNode.
Hypothesis f_name : forall x, name (f x) = name x.

Lemma update_at_name (path : list string) (n : RadixTreeNode) :
  name (update_at path f n) = name n.
Proof. destruct path; simpl; [apply f_name | reflexivity]. Qed.

(** A write through a path is seen at that path. *)
Lemma node_at_update_same (path : list string) (n c : RadixTreeNode) :
  node_at path n = Some c ->
  node_at path (update_at path f n) = Some (f c).
Proof.
  revert n; induction path as [|nm path IH]; intros n; simpl.
  - now intros [= ->].
  - destruct (get_child nm (children n)) as [ch|] eqn:E; [|discriminate].
    intros H.
    rewrite get_child_update_same by (intros; apply update_at_name).
    rewrite E; simpl. now apply IH.
Qed.

(** What lies below the written node is kept by [f]. *)
Hypothesis f_below :
  forall nm x c, get_child nm (children x) = Some c ->
                 get_child nm (children (f x)) = Some c.

(** A write through a path keeps every other node in place, with its name
    and payload. *)
Lemma node_at_update_other (path other : list string) (n c : RadixTreeNode) :
  other <> path ->
  node_at other n = Some c ->
  exists c', node_at other (update_at path f n) = Some c' /\
             name c' = name c /\ data c' = data c.
Proof.
  revert other n; induction path as [|nm path IH]; intros other n Hne H.
  - destruct other as [|nm' other]; [congruence|].
    simpl in *.
    destruct (get_child nm' (children n)) as [ch|] eqn:E; [|discriminate].
    rewrite (f_below _ _ _ E). eauto.
  - destruct other as [|nm' other]; simpl in *.
    + injection H as <-. eexists; split; [reflexivity|]. now simpl.
    + destruct (get_child nm' (children n)) as [ch|] eqn:E; [|discriminate].
      destruct (string_dec nm nm') as [->|Hnm].
      * rewrite get_child_update_same by (intros; apply update_at_name).
        rewrite E; simpl. apply IH; [congruence | exact H].
      * rewrite get_child_update_other
          by (try exact Hnm; intros; apply update_at_name).
        rewrite E. eauto.
Qed.
End UpdateAt.

Lemma node_at_app (p q : list string) (n : RadixTreeNode) :
  node_at (p ++ q)%list n =
  match node_at p n with
  | Some c => node_at q c
  | None => None
  end.
Proof.
  revert n; induction p as [|nm p IH]; intros n; simpl; [reflexivity|].
  destruct (get_child nm (children n)); [apply IH | reflexivity].
Qed.

Lemma node_at_prefix (p q : list string) (n c : RadixTreeNode) :
  node_at (p ++ q)%list n = Some c -> exists c', node_at p n = Some c'.
Proof.
  rewrite node_at_app. destruct (node_at p n); [eauto | discriminate].
Qed.

Lemma add_child_name (nm : string) (x : RadixTreeNode) :
  name (add_child nm x) = name x.
Proof. reflexivity. Qed.

Lemma add_child_below (nm nm' : string) (x c : RadixTreeNode) :
  get_child nm' (children x) = Some c ->
  get_child nm' (children (add_child nm x)) = Some c.
Proof. simpl. apply get_child_app_some. Qed.

(* ------------------------------------------------------------------ *)
(** ** What one call does *)

Lemma start_caller_returns (now : time_point) (nm : string)
  (p : CallProfiler) (cur : RadixTreeNode) :
  node_at (cursor_of p) (root_of p) = Some cur ->
  start_caller now nm p =
  Returns tt
    {| m_callStack :=
         {| info_callerName := nm; startTime := now |} :: m_callStack p;
       m_radixTree :=
         {| m_root := entered_root nm cur (m_radixTree p);
            m_current_node := (cursor_of p ++ [nm])%list |} |}.
Proof.
  intros H.
  unfold start_caller, bind, on_stack, on_tree, on_member, push, entry, bind,
    get_current_node, entered_root; simpl.
  now rewrite H.
Qed.

Lemma end_caller_returns (now : time_point) (p : CallProfiler)
  (top_info : CallerInfo) (rest : call_stack) (cur : RadixTreeNode) :
  m_callStack p = top_info :: rest ->
  node_at (cursor_of p) (root_of p) = Some cur ->
  cursor_of p <> [] ->
  end_caller now p =
  Returns tt
    {| m_callStack := rest;
       m_radixTree :=
         {| m_root := update_at (cursor_of p)
                        (completed now top_info) (root_of p);
            m_current_node := removelast (cursor_of p) |} |}.
Proof.
  intros Hs Hc Hne.
  unfold end_caller, bind, on_stack, on_tree, on_member, top, pop,
    update_current_data, bind, get_current_node, move_current_to_parent; simpl.
  rewrite Hs; simpl. rewrite Hc; simpl.
  destruct (cursor_of p) eqn:E; [congruence|].
  reflexivity.
Qed.

(** With nothing on the stack, [end_caller] takes [top()] of an empty stack. *)
Lemma end_caller_empty_stack (now : time_point) (p : CallProfiler) :
  m_callStack p = [] -> end_caller now p = Undefined.
Proof.
  intros Hs.
  unfold end_caller, bind, on_stack, on_member, top; simpl.
  now rewrite Hs.
Qed.

Lemma completed_name now top_info x : name (completed now top_info x) = name x.
Proof. reflexivity. Qed.

Lemma completed_below now top_info nm x c :
  get_child nm (children x) = Some c ->
  get_child nm (children (completed now top_info x)) = Some c.
Proof. now simpl. Qed.

(* ------------------------------------------------------------------ *)
(** ** The invariant of the profiler *)

Lemma consistent_at_rest (p : CallProfiler) :
  m_callStack p = [] -> cursor_of p = [] -> consistent p.
Proof.
  intros Hs Hc; split.
  - exists (root_of p). now rewrite Hc.
  - unfold lock_step. now rewrite Hs, Hc.
Qed.

Lemma lock_step_depth (p : CallProfiler) :
  lock_step p ->
  List.length (m_callStack p) = List.length (cursor_of p).
Proof.
  unfold lock_step; intros <-.
  now rewrite length_map, length_rev.
Qed.

Lemma start_caller_consistent (now : time_point) (nm : string)
  (p : CallProfiler) :
  consistent p ->
  exists p', start_caller now nm p = Returns tt p' /\ consistent p' /\
             m_callStack p' =
             {| info_callerName := nm; startTime := now |} :: m_callStack p.
Proof.
  intros [[cur Hcur] Hls].
  eexists; split; [apply (start_caller_returns _ _ _ _ Hcur)|].
  split; [split|reflexivity].
  - unfold cursor_valid, entered_root; simpl.
    rewrite node_at_app.
    destruct (get_child nm (children cur)) as [c|] eqn:E.
    + rewrite Hcur; simpl. rewrite E. eauto.
    + rewrite (node_at_update_same _ (add_child_name nm) _ _ _ Hcur); simpl.
      rewrite get_child_app_none by exact E. simpl.
      rewrite String.eqb_refl. eauto.
  - unfold lock_step in *; simpl.
    now rewrite map_app, Hls.
Qed.

Lemma lock_step_top (p : CallProfiler) (top_info : CallerInfo)
  (rest : call_stack) :
  lock_step p -> m_callStack p = top_info :: rest ->
  cursor_of p =
  (map info_callerName (rev rest) ++ [info_callerName top_info])%list.
Proof.
  unfold lock_step; intros <- ->; simpl. now rewrite map_app.
Qed.

Lemma end_caller_consistent (now : time_point) (p : CallProfiler)
  (top_info : CallerInfo) (rest : call_stack) :
  consistent p -> m_callStack p = top_info :: rest ->
  exists p', end_caller now p = Returns tt p' /\ consistent p' /\
             m_callStack p' = rest.
Proof.
  intros [[cur Hcur] Hls] Hs.
  pose proof (lock_step_top _ _ _ Hls Hs) as Hpath.
  assert (Hne : cursor_of p <> []).
  { rewrite Hpath. intros E. now apply app_eq_nil in E as [_ E]. }
  eexists; split; [apply (end_caller_returns _ _ _ _ _ Hs Hcur Hne)|].
  split; [split|reflexivity].
  - unfold cursor_valid; simpl.
    rewrite Hpath, removelast_last.
    rewrite Hpath in Hcur.
    destruct (node_at_prefix _ _ _ _ Hcur) as [par Hpar].
    assert (Hneq : map info_callerName (rev rest) <>
                   (map info_callerName (rev rest)
                      ++ [info_callerName top_info])%list).
    { intros E. apply (f_equal (@List.length string)) in E.
      rewrite length_app in E; simpl in E. lia. }
    destruct (node_at_update_other (completed now top_info)
                (completed_name now top_info) (completed_below now top_info)
                _ _ _ _ Hneq Hpar) as [c' [Hc' _]].
    eauto.
  - unfold lock_step; simpl.
    now rewrite Hpath, removelast_last.
Qed.

(* ------------------------------------------------------------------ *)
(** ** Sequences of calls *)

Lemma run_cons (c : call) (cs : list call) (p p1 : CallProfiler) :
  do_call c p = Returns tt p1 -> run (c :: cs) p = run cs p1.
Proof. intros H. simpl. unfold bind. now rewrite H. Qed.

Lemma run_app (pre post : list call) (p : CallProfiler) :
  run (pre ++ post) p = bind (run pre) (fun _ => run post) p.
Proof.
  revert p; induction pre as [|c pre IH]; intros p; simpl.
  - reflexivity.
  - unfold bind in *. destruct (do_call c p); auto.
Qed.

Lemma unmatched_app (pre post : list call) (pending : nat) :
  unmatched (pre ++ post) pending =
  match unmatched pre pending with
  | Some j => unmatched post j
  | None => None
  end.
Proof.
  revert pending; induction pre as [|c pre IH]; intros pending; simpl.
  - reflexivity.
  - destruct c; [apply IH|]. destruct pending; [reflexivity | apply IH].
Qed.

(** A sequence in which every end has a start to match runs to its end, and
    leaves as many entries on the stack as starts are unmatched. *)
Lemma run_consistent (cs : list call) :
  forall (p : CallProfiler) (k : nat),
    consistent p ->
    unmatched cs (List.length (m_callStack p)) = Some k ->
    exists p', run cs p = Returns tt p' /\ consistent p' /\
               List.length (m_callStack p') = k.
Proof.
  induction cs as [|c cs IH]; intros p k Hp Hu; simpl in Hu.
  - injection Hu as <-. now exists p.
  - destruct c as [now nm | now].
    + destruct (start_caller_consistent now nm p Hp) as [p1 [H1 [Hp1 Hs1]]].
      rewrite (run_cons (CStart now nm) cs p p1 H1).
      apply IH; [exact Hp1|]. now rewrite Hs1.
    + destruct (m_callStack p) as [|top_info rest] eqn:Hs; [discriminate|].
      simpl in Hu.
      destruct (end_caller_consistent now p top_info rest Hp Hs)
        as [p1 [H1 [Hp1 Hs1]]].
      rewrite (run_cons (CEnd now) cs p p1 H1).
      apply IH; [exact Hp1|]. now rewrite Hs1.
Qed.

(** C5.  Started on a profiler at rest (empty stack, cursor on the root), a
    balanced sequence of [start_caller] and [end_caller] calls runs to its end
    with the cursor back on the root and the stack empty; and after every
    prefix of the sequence the depth of the stack equals the depth of the
    cursor below the root. *)
Theorem balanced_run_lock_step (cs : list call) (p : CallProfiler) :
  m_callStack p = [] ->
  cursor_of p = [] ->
  balanced cs ->
  exists p',
    run cs p = Returns tt p' /\
    cursor_of p' = [] /\
    m_callStack p' = [] /\
    forall pre post, cs = (pre ++ post)%list ->
      exists q,
        run pre p = Returns tt q /\
        List.length (m_callStack q) =
        List.length (cursor_of q).
Proof.
  intros Hs Hc Hb.
  pose proof (consistent_at_rest p Hs Hc) as Hp.
  unfold balanced in Hb.
  destruct (run_consistent cs p 0%nat Hp) as [p' [Hrun [[_ Hls] Hlen]]].
  { now rewrite Hs. }
  exists p'. split; [exact Hrun|].
  pose proof (lock_step_depth p' Hls) as Hd.
  rewrite Hlen in Hd.
  repeat split.
  - now apply length_zero_iff_nil.
  - now apply length_zero_iff_nil.
  - intros pre post ->.
    rewrite unmatched_app in Hb.
    destruct (unmatched pre 0) as [j|] eqn:Hpre; [|discriminate].
    destruct (run_consistent pre p j Hp) as [q [Hq [[_ Hlsq] _]]].
    { now rewrite Hs. }
    exists q. split; [exact Hq | now apply lock_step_depth].
Qed.

Lemma balanced_run_lock_step_witness :
  exists p',
    run [CStart 0 "outer"; CStart 1 "inner"; CEnd 2; CEnd 3] new_profiler
      = Returns tt p' /\
    cursor_of p' = [] /\
    m_callStack p' = [] /\
    forall pre post,
      [CStart 0 "outer"; CStart 1 "inner"; CEnd 2; CEnd 3]
        = (pre ++ post)%list ->
      exists q,
        run pre new_profiler = Returns tt q /\
        List.length (m_callStack q) =
        List.length (cursor_of q).
Proof.
  apply (balanced_run_lock_step
           [CStart 0 "outer"; CStart 1 "inner"; CEnd 2; CEnd 3] new_profiler);
    reflexivity.
Defined.

(* ------------------------------------------------------------------ *)
(** ** end_caller with nothing to match *)

(** C1, as the code has it.  [end_caller] makes no check of the stack: when the
    stack of active invocations is empty it takes [top()] of an empty
    [std::stack], so its behaviour is undefined; it does not throw, and no
    state is guaranteed afterwards. *)
Theorem end_caller_on_empty_stack (now : time_point) (p : CallProfiler) :
  m_callStack p = [] ->
  end_caller now p = Undefined /\
  (forall e s, end_caller now p <> Throws e s) /\
  (forall s, end_caller now p <> Returns tt s).
Proof.
  intros Hs. rewrite (end_caller_empty_stack now p Hs).
  repeat split; intros; discriminate.
Qed.

Lemma end_caller_on_empty_stack_witness :
  end_caller 5 new_profiler = Undefined /\
  (forall e s, end_caller 5 new_profiler <> Throws e s) /\
  (forall s, end_caller 5 new_profiler <> Returns tt s).
Proof.
  apply (end_caller_on_empty_stack 5 new_profiler). reflexivity.
Defined.

(** C1 as stated fails: on a fresh profiler [end_caller] does not fail with
    the unbalanced-call condition (nor with any other). *)
Lemma end_caller_fresh_does_not_throw :
  m_callStack new_profiler = [] /\
  end_caller 0 new_profiler <> Throws unbalanced_call new_profiler /\
  ~ (exists e s, end_caller 0 new_profiler = Throws e s).
Proof.
  split; [reflexivity|]. split.
  - vm_compute. discriminate.
  - intros [e [s H]]. vm_compute in H. discriminate.
Qed.

(* ------------------------------------------------------------------ *)
(** ** reset *)

Lemma pop_while_not_empty_empty (s : call_stack) : pop_while_not_empty s = [].
Proof. induction s as [|ci s IH]; simpl; auto. Qed.

(** C8.  [reset] always returns, and leaves the profiler as it is when
    constructed: a bare root with the cursor on it and an empty stack.  A second
    [reset] in a row changes nothing. *)
Theorem reset_idempotent (p : CallProfiler) :
  reset p = Returns tt new_profiler /\
  (reset ;;; reset)%member p = reset p /\
  m_callStack new_profiler = [] /\
  root_of new_profiler = mkNode "" empty_profile [] /\
  cursor_of new_profiler = [].
Proof.
  assert (H : forall q, reset q = Returns tt new_profiler).
  { intros q. unfold reset, bind, on_stack, on_tree, on_member, tree_reset.
    simpl. now rewrite pop_while_not_empty_empty. }
  repeat split; [apply H|].
  unfold bind at 1. now rewrite !H.
Qed.

(* ------------------------------------------------------------------ *)
(** ** Checked access of the buffer *)

Lemma size_of_wf (b : BufferExpander) :
  buffer_wf b ->
  size b = m_end b - m_begin b /\
  size b <= Z.of_nat (List.length (storage b)).
Proof.
  unfold buffer_wf, size, wrap_size_t; intros (H0 & H1 & H2 & H3 & H4).
  rewrite Z.mod_small by lia. lia.
Qed.

(** C9.  For a buffer that satisfies its invariant and an index of type
    [size_t]: when the index is not below the size, [at] throws
    [std::out_of_range]; when it is below the size, [at] returns the byte at
    that index; so it throws exactly when the index is not below the size. *)
Theorem at_checks_range (b : BufferExpander) (it : Z) :
  buffer_wf b ->
  0 <= it < SIZE_WIDTH ->
  (size b <= it ->
   at_ it b = Throws (out_of_range (out_of_bounds_message it (size b))) b) /\
  (it < size b ->
   exists v, at_ it b = Returns v b /\
             nth_error (storage b) (Z.to_nat it) = Some v) /\
  ((exists e s, at_ it b = Throws e s) <-> size b <= it).
Proof.
  intros Hwf Hit.
  destruct (size_of_wf b Hwf) as [Hsz Hle].
  assert (Hthrow : size b <= it ->
    at_ it b = Throws (out_of_range (out_of_bounds_message it (size b))) b).
  { intros H. unfold at_, bind, validate_range.
    destruct (size b <=? it)%Z eqn:E; [reflexivity|].
    apply Z.leb_gt in E. lia. }
  assert (Hret : it < size b ->
    exists v, at_ it b = Returns v b /\
              nth_error (storage b) (Z.to_nat it) = Some v).
  { intros H. unfold at_, bind, validate_range, data_at.
    destruct (size b <=? it)%Z eqn:E; [apply Z.leb_le in E; lia|].
    destruct (nth_error (storage b) (Z.to_nat it)) as [v|] eqn:En.
    - now exists v.
    - apply nth_error_None in En. lia. }
  split; [exact Hthrow|]. split; [exact Hret|]. split.
  - intros [e [s H]].
    destruct (Z_lt_le_dec it (size b)) as [Hlt|Hge]; [|exact Hge].
    destruct (Hret Hlt) as [v [Hv _]]. congruence.
  - intros H. rewrite (Hthrow H). eauto.
Qed.

Lemma at_checks_range_witness :
  let b := {| storage := [7; -3; 12; 0]; m_begin := 64; m_end := 67;
              m_end_cap := 68 |} in
  (size b <= 1 ->
   at_ 1 b = Throws (out_of_range (out_of_bounds_message 1 (size b))) b) /\
  (1 < size b ->
   exists v, at_ 1 b = Returns v b /\
             nth_error (storage b) (Z.to_nat 1) = Some v) /\
  ((exists e s, at_ 1 b = Throws e s) <-> size b <= 1).
Proof.
  intros b.
  apply (at_checks_range b 1).
  - unfold buffer_wf, SIZE_WIDTH; simpl. lia.
  - unfold SIZE_WIDTH. lia.
Defined.

(* ------------------------------------------------------------------ *)
(** ** The report *)

(** The recursive printer writes the lines of the pre-order traversal. *)
Lemma print_is_preorder (n : RadixTreeNode) :
  forall (depth : nat) (os : ostream),
    _print_profiling_result n depth os =
    os ++ concat_lines (map report_line (preorder n depth)).
Proof.
  induction n as [nm d cs IH] using RadixTreeNode_ind.
  intros depth os.
  cbn [_print_profiling_result preorder map concat_lines fold_right].
  fold concat_lines.
  set (header := match depth with
                 | O => write_indent depth os ++ "Profiling Result" ++ endl
                 | S _ => write_indent depth os ++ profile_text d ++ endl
                 end).
  assert (Hheader : header = os ++ report_line (depth, mkNode nm d cs)).
  { unfold header, report_line; simpl fst; simpl snd.
    destruct depth as [|k].
    - reflexivity.
    - rewrite write_indent_indentation. simpl data.
      now rewrite append_assoc. }
  rewrite Hheader; clear Hheader header.
  rewrite <- append_assoc.
  generalize (os ++ report_line (depth, mkNode nm d cs)) as acc.
  induction IH as [|c cs' Hc _ IHcs]; intros acc.
  - simpl. now rewrite append_empty_r.
  - cbn [flat_map]. rewrite map_app, concat_lines_app, <- append_assoc.
    rewrite <- Hc. apply IHcs.
Qed.

Lemma preorder_length (n : RadixTreeNode) :
  forall depth, List.length (preorder n depth) = node_count n.
Proof.
  induction n as [nm d cs IH] using RadixTreeNode_ind.
  intros depth. cbn [preorder node_count List.length]. f_equal.
  induction IH as [|c cs' Hc _ IHcs]; [reflexivity|].
  cbn [flat_map fold_right]. now rewrite length_app, Hc, IHcs.
Qed.

(** Every node of the traversal other than the first lies at depth 1 or
    more. *)
Lemma preorder_depths (n : RadixTreeNode) :
  forall depth e, In e (preorder n depth) -> (depth <= fst e)%nat.
Proof.
  induction n as [nm d cs IH] using RadixTreeNode_ind.
  intros depth e. cbn [preorder]. intros [<-|Hin]; [simpl; lia|].
  apply in_flat_map in Hin as [c [Hc He]].
  rewrite Forall_forall in IH.
  specialize (IH c Hc (S depth) e He). lia.
Qed.

(** C2, as the code has it.  [print_profiling_result] walks depth-first in
    pre-order from the node at the cursor, which is the root when the cursor is
    on the root.  It writes one line per node of that subtree: for its first
    node, at depth 0, the fixed header; for every other node, at depth 1 or
    more below the starting node, two spaces per level of depth, then the
    caller name of the payload, the cumulative time in milliseconds and the
    invocation count. *)
Theorem print_profiling_result_preorder (p : CallProfiler)
  (node : RadixTreeNode) (os : ostream) :
  node_at (cursor_of p) (root_of p) = Some node ->
  print_profiling_result p os = Returns tt (os ++ spec_report node) /\
  spec_report node =
    ("Profiling Result" ++ endl) ++
    concat_lines (map report_line (tl (preorder node 0))) /\
  List.length (preorder node 0) = node_count node /\
  (forall e, In e (tl (preorder node 0)) ->
     (1 <= fst e)%nat /\
     report_line e =
       indentation (fst e) ++ callerName (data (snd e)) ++ " - Total Time: "
         ++ decimal (totalTime (data (snd e))) ++ " ms, Call Count: "
         ++ decimal (callCount (data (snd e))) ++ endl) /\
  (cursor_of p = [] ->
   print_profiling_result p os = spec_print_profiling_result p os).
Proof.
  intros Hcur.
  assert (Hprint : print_profiling_result p os
                   = Returns tt (os ++ spec_report node)).
  { unfold print_profiling_result, get_current_node. rewrite Hcur.
    now rewrite print_is_preorder. }
  split; [exact Hprint|]. split; [|split; [apply preorder_length|split]].
  - unfold spec_report. destruct node as [nm d cs]. reflexivity.
  - intros e He.
    assert (Hd : (1 <= fst e)%nat).
    { destruct node as [nm d cs]. cbn [preorder tl] in He.
      apply in_flat_map in He as [c [_ He]].
      apply (preorder_depths c 1%nat e He). }
    split; [exact Hd|].
    unfold report_line, profile_text.
    destruct (fst e) as [|k]; [lia|].
    now rewrite !append_assoc.
  - intros Hroot. rewrite Hprint. unfold spec_print_profiling_result.
    rewrite Hroot in Hcur. simpl in Hcur. now injection Hcur as ->.
Qed.

Lemma print_profiling_result_preorder_witness :
  let p := {| m_callStack := [];
              m_radixTree :=
                {| m_root := mkNode "" empty_profile
                     [mkNode "f" {| callerName := "f"; totalTime := 3;
                                    callCount := 2 |} []];
                   m_current_node := [] |} |} in
  print_profiling_result p "" =
  Returns tt ("Profiling Result" ++ endl ++
              "  f - Total Time: 3 ms, Call Count: 2" ++ endl).
Proof.
  intros p.
  destruct (print_profiling_result_preorder p (root_of p) "")
    as [H _]; [reflexivity|].
  rewrite H. reflexivity.
Defined.

(** C2 as stated fails: with an invocation still active the cursor is below
    the root, and the report starts at the cursor, not at the root.  After
    start("outer"), start("inner"), end() the report leaves out the line of
    "outer" and shows "inner" one level up. *)
Lemma print_starts_at_cursor_not_root :
  exists p,
    run [CStart 0 "outer"; CStart 1000000 "inner"; CEnd 3000000] new_profiler
      = Returns tt p /\
    print_profiling_result p "" =
      Returns tt ("Profiling Result" ++ endl ++
                  "  inner - Total Time: 2 ms, Call Count: 1" ++ endl) /\
    spec_print_profiling_result p "" =
      Returns tt ("Profiling Result" ++ endl ++
                  "   - Total Time: 0 ms, Call Count: 0" ++ endl ++
                  "    inner - Total Time: 2 ms, Call Count: 1" ++ endl) /\
    print_profiling_result p "" <> spec_print_profiling_result p "".
Proof.
  eexists. split; [vm_compute; reflexivity|].
  split; [vm_compute; reflexivity|].
  split; [vm_compute; reflexivity|].
  vm_compute. discriminate.
Qed.

(** After a balanced sequence on a profiler at rest the cursor is on the root,
    so the report is the traversal from the root. *)
Lemma print_after_balanced_run (cs : list call) (p p' : CallProfiler)
  (os : ostream) :
  m_callStack p = [] ->
  cursor_of p = [] ->
  balanced cs ->
  run cs p = Returns tt p' ->
  print_profiling_result p' os = spec_print_profiling_result p' os.
Proof.
  intros Hs Hc Hb Hrun.
  destruct (run_consistent cs p 0%nat (consistent_at_rest p Hs Hc))
    as [q [Hq [[_ Hls] Hlen]]].
  { rewrite Hs. exact Hb. }
  assert (q = p') by congruence. subst q.
  pose proof (lock_step_depth p' Hls) as Hd. rewrite Hlen in Hd.
  symmetry in Hd. apply length_zero_iff_nil in Hd.
  unfold print_profiling_result, get_current_node, spec_print_profiling_result.
  rewrite Hd. simpl. now rewrite print_is_preorder.
Qed.

(** C10.  On a profiler whose tree is the root alone (the cursor on the root,
    the root without children) the report is one line, the header, with no
    indentation before it. *)
Theorem print_bare_root (p : CallProfiler) (os : ostream) :
  cursor_of p = [] ->
  children (root_of p) = [] ->
  print_profiling_result p os = Returns tt (os ++ "Profiling Result" ++ endl).
Proof.
  intros Hc Hch.
  unfold print_profiling_result, get_current_node. rewrite Hc. simpl.
  destruct (root_of p) as [nm d cs]. simpl in Hch. subst cs.
  reflexivity.
Qed.

Lemma print_bare_root_witness :
  print_profiling_result new_profiler "" =
  Returns tt ("" ++ "Profiling Result" ++ endl).
Proof.
  apply (print_bare_root new_profiler ""); reflexivity.
Defined.

(** The same holds right after [reset], whatever the profiler held. *)
Lemma print_after_reset (p q : CallProfiler) (os : ostream) :
  reset p = Returns tt q ->
  print_profiling_result q os = Returns tt (os ++ "Profiling Result" ++ endl).
Proof.
  intros H.
  assert (Hq : q = new_profiler).
  { unfold reset, bind, on_stack, on_tree, on_member, tree_reset in H.
    simpl in H. rewrite pop_while_not_empty_empty in H. now injection H. }
  subst q. reflexivity.
Qed.

(* ------------------------------------------------------------------ *)
(** ** A start and the end that matches it *)

Lemma update_at_app (p q : list string) (f : RadixTreeNode -> RadixTreeNode)
  (n : RadixTreeNode) :
  update_at (p ++ q)%list f n = update_at p (update_at q f) n.
Proof.
  revert n; induction p as [|nm p IH]; intros n; simpl; [reflexivity|].
  f_equal. induction (children n) as [|c cs IHcs]; simpl; [reflexivity|].
  destruct (String.eqb (name c) nm); [now rewrite IH | now rewrite IHcs].
Qed.

Lemma get_child_middle (nm : string) (before after : list RadixTreeNode)
  (c : RadixTreeNode) :
  get_child nm before = None -> name c = nm ->
  get_child nm (before ++ c :: after)%list = Some c.
Proof.
  intros Hb Hc. rewrite get_child_app_none by exact Hb.
  simpl. now rewrite Hc, String.eqb_refl.
Qed.

Lemma update_child_middle (nm : string) (g : RadixTreeNode -> RadixTreeNode)
  (before after : list RadixTreeNode) (c : RadixTreeNode) :
  get_child nm before = None -> name c = nm ->
  update_child nm g (before ++ c :: after)%list = (before ++ g c :: after)%list.
Proof.
  intros Hb Hc.
  induction before as [|x before IH]; simpl in *.
  - now rewrite Hc, String.eqb_refl.
  - destruct (String.eqb (name x) nm); [discriminate|]. now rewrite IH.
Qed.

(** The node that [entry] moves the cursor to. *)
Lemma entered_node (nm : string) (cur : RadixTreeNode) (t : RadixTree) :
  node_at (m_current_node t) (m_root t) = Some cur ->
  node_at (m_current_node t ++ [nm])%list (entered_root nm cur t) =
  Some (entered_child nm cur).
Proof.
  intros Hcur. unfold entered_root, entered_child. rewrite node_at_app.
  destruct (get_child nm (children cur)) as [c|] eqn:E.
  - rewrite Hcur. simpl. now rewrite E.
  - rewrite (node_at_update_same _ (add_child_name nm) _ _ _ Hcur).
    simpl. rewrite get_child_app_none by exact E.
    simpl. now rewrite String.eqb_refl.
Qed.

(** The current node once [entry] has run: the child is there. *)
Lemma entered_parent (nm : string) (cur : RadixTreeNode) (t : RadixTree) :
  node_at (m_current_node t) (m_root t) = Some cur ->
  node_at (m_current_node t) (entered_root nm cur t) =
  Some (match get_child nm (children cur) with
        | Some _ => cur
        | None => add_child nm cur
        end).
Proof.
  intros Hcur. unfold entered_root.
  destruct (get_child nm (children cur)) as [c|] eqn:E; [exact Hcur|].
  exact (node_at_update_same _ (add_child_name nm) _ _ _ Hcur).
Qed.

(** A start followed at once by its end: the stack and the cursor are as
    before, and the payload of the entered child has been updated once. *)
Lemma pair_returns (t0 t1 : time_point) (nm : string) (p : CallProfiler)
  (cur : RadixTreeNode) :
  node_at (cursor_of p) (root_of p) = Some cur ->
  run [CStart t0 nm; CEnd t1] p =
  Returns tt
    {| m_callStack := m_callStack p;
       m_radixTree :=
         {| m_root :=
              update_at (cursor_of p ++ [nm])%list
                (completed t1 {| info_callerName := nm; startTime := t0 |})
                (entered_root nm cur (m_radixTree p));
            m_current_node := cursor_of p |} |}.
Proof.
  intros Hcur.
  rewrite (run_cons (CStart t0 nm) _ p _
             (start_caller_returns t0 nm p cur Hcur)).
  pose proof (entered_node nm cur (m_radixTree p) Hcur) as Hchild.
  erewrite (run_cons (CEnd t1) []).
  2:{ simpl do_call.
      eapply end_caller_returns; simpl; [reflexivity | exact Hchild |].
      intros E. now apply app_eq_nil in E as [_ E]. }
  simpl. unfold ret. now rewrite removelast_last.
Qed.

Lemma pair_on_node (t0 t1 : time_point) (nm : string) (p : CallProfiler)
  (cur : RadixTreeNode) :
  node_at (cursor_of p) (root_of p) = Some cur ->
  exists p',
    run [CStart t0 nm; CEnd t1] p = Returns tt p' /\
    m_callStack p' = m_callStack p /\
    cursor_of p' = cursor_of p /\
    node_at (cursor_of p) (root_of p') =
    Some (mkNode (name cur) (data cur)
            (update_child nm
               (completed t1 {| info_callerName := nm; startTime := t0 |})
               (children (match get_child nm (children cur) with
                          | Some _ => cur
                          | None => add_child nm cur
                          end)))).
Proof.
  intros Hcur.
  eexists. split; [apply (pair_returns t0 t1 nm p cur Hcur)|].
  split; [reflexivity|]. split; [reflexivity|].
  simpl. rewrite update_at_app.
  rewrite (node_at_update_same
             (update_at [nm]
                (completed t1 {| info_callerName := nm; startTime := t0 |}))
             (fun x => eq_refl) _ _ _
             (entered_parent nm cur (m_radixTree p) Hcur)).
  simpl. now destruct (get_child nm (children cur)).
Qed.

(** Pairs on a name that is already a child of the current node accumulate in
    that child. *)
Lemma run_repeated_pairs (nm : string)
  (times : list (time_point * time_point)) :
  forall (p : CallProfiler) (nmc : string) (dc d : CallerProfile)
         (before after kids : list RadixTreeNode),
    node_at (cursor_of p) (root_of p) =
      Some (mkNode nmc dc (before ++ mkNode nm d kids :: after)) ->
    get_child nm before = None ->
    exists p',
      run (repeated_pairs nm times) p = Returns tt p' /\
      m_callStack p' = m_callStack p /\
      cursor_of p' = cursor_of p /\
      node_at (cursor_of p) (root_of p') =
        Some (mkNode nmc dc
                (before ++ mkNode nm (after_pairs nm times d) kids :: after)).
Proof.
  induction times as [|[t0 t1] times IH]; intros p nmc dc d before after kids
    Hcur Hb.
  - exists p. now simpl.
  - destruct (pair_on_node t0 t1 nm p _ Hcur) as [p1 [Hrun [Hs [Hc Hn]]]].
    simpl in Hn.
    rewrite (get_child_middle nm before after (mkNode nm d kids) Hb eq_refl)
      in Hn.
    simpl in Hn.
    rewrite (update_child_middle nm _ before after (mkNode nm d kids) Hb
               eq_refl) in Hn.
    rewrite <- Hc in Hn.
    destruct (IH p1 nmc dc _ before after kids Hn Hb)
      as [p' [Hrun' [Hs' [Hc' Hn']]]].
    exists p'.
    change (repeated_pairs nm ((t0, t1) :: times))
      with ([CStart t0 nm; CEnd t1] ++ repeated_pairs nm times)%list.
    rewrite run_app. unfold bind. rewrite Hrun.
    split; [exact Hrun'|].
    split; [congruence|]. split; [congruence|].
    rewrite <- Hc. exact Hn'.
Qed.

Lemma after_pairs_totalTime nm times :
  forall d,
    totalTime (after_pairs nm times d) = totalTime d + elapsed_sum times.
Proof.
  induction times as [|[t0 t1] times IH]; intros d; simpl; [lia|].
  rewrite IH. simpl. lia.
Qed.

Lemma after_pairs_callCount nm times :
  forall d, times <> [] ->
    callCount (after_pairs nm times d) =
    wrap_int (callCount d + Z.of_nat (List.length times)).
Proof.
  induction times as [|[t0 t1] times IH]; intros d Hne; [congruence|].
  cbn [after_pairs].
  destruct times as [|pr times'].
  - reflexivity.
  - rewrite IH by discriminate.
    cbn [update_profile callCount].
    rewrite wrap_int_plus. f_equal.
    change (List.length ((t0, t1) :: pr :: times'))
      with (S (List.length (pr :: times'))).
    rewrite Nat2Z.inj_succ. lia.
Qed.

Lemma after_pairs_callerName nm times :
  forall d, times <> [] -> callerName (after_pairs nm times d) = nm.
Proof.
  induction times as [|[t0 t1] times IH]; intros d Hne; [congruence|].
  cbn [after_pairs].
  destruct times as [|pr times']; [reflexivity|].
  apply IH. discriminate.
Qed.

Lemma after_pairs_closed nm times d :
  times <> [] ->
  after_pairs nm times d =
  {| callerName := nm;
     totalTime := totalTime d + elapsed_sum times;
     callCount := wrap_int (callCount d + Z.of_nat (List.length times)) |}.
Proof.
  intros Hne.
  rewrite <- (after_pairs_callCount nm times d Hne).
  rewrite <- (after_pairs_totalTime nm times d).
  rewrite <- (after_pairs_callerName nm times d Hne) at 2.
  now destruct (after_pairs nm times d).
Qed.

(** Pairs on a name not yet entered under the current node: the first start
    creates the child, every pair accumulates in it. *)
Lemma run_repeated_pairs_new (nm : string)
  (times : list (time_point * time_point)) (p : CallProfiler)
  (cur : RadixTreeNode) :
  node_at (cursor_of p) (root_of p) = Some cur ->
  get_child nm (children cur) = None ->
  times <> [] ->
  exists p',
    run (repeated_pairs nm times) p = Returns tt p' /\
    m_callStack p' = m_callStack p /\
    cursor_of p' = cursor_of p /\
    node_at (cursor_of p) (root_of p') =
      Some (mkNode (name cur) (data cur)
              (children cur ++
               [mkNode nm
                  {| callerName := nm;
                     totalTime := elapsed_sum times;
                     callCount := wrap_int (Z.of_nat (List.length times)) |}
                  []])).
Proof.
  intros Hcur Habs Hne.
  destruct times as [|[t0 t1] times]; [congruence|].
  destruct (pair_on_node t0 t1 nm p cur Hcur) as [p1 [Hrun [Hs [Hc Hn]]]].
  rewrite Habs in Hn. simpl in Hn.
  rewrite (update_child_middle nm _ (children cur) []
             (mkNode nm empty_profile []) Habs eq_refl) in Hn.
  rewrite <- Hc in Hn.
  destruct (run_repeated_pairs nm times p1 _ _ _ _ _ _ Hn Habs)
    as [p' [Hrun' [Hs' [Hc' Hn']]]].
  exists p'.
  change (repeated_pairs nm ((t0, t1) :: times))
    with ([CStart t0 nm; CEnd t1] ++ repeated_pairs nm times)%list.
  rewrite run_app. unfold bind. rewrite Hrun.
  split; [exact Hrun'|].
  split; [congruence|]. split; [congruence|].
  rewrite <- Hc, Hn'.
  cbn [startTime info_callerName data children].
  change (after_pairs nm times
            (update_profile (duration_cast_milliseconds (t1 - t0)) nm
               empty_profile))
    with (after_pairs nm ((t0, t1) :: times) empty_profile).
  rewrite after_pairs_closed by discriminate.
  reflexivity.
Qed.

Lemma get_child_none_filter (nm : string) (cs : list RadixTreeNode) :
  get_child nm cs = None ->
  filter (fun c => String.eqb (name c) nm) cs = [].
Proof.
  induction cs as [|x cs IH]; simpl; [reflexivity|].
  destruct (String.eqb (name x) nm); [discriminate | exact IH].
Qed.

(** C4, as the code has it.  With the cursor on a node under which the name
    has not been entered yet, N balanced pairs on that name, 1 <= N <= INT_MAX,
    run to their end, leave stack and cursor as they were, and add to the
    children of the current node exactly one node of that name, whose
    invocation count is N and whose cumulative time is the sum of the elapsed
    milliseconds of the pairs. *)
Theorem repeated_pairs_count (nm : string)
  (times : list (time_point * time_point)) (p : CallProfiler)
  (cur : RadixTreeNode) :
  node_at (cursor_of p) (root_of p) = Some cur ->
  get_child nm (children cur) = None ->
  1 <= Z.of_nat (List.length times) <= INT_MAX ->
  exists p' cur',
    run (repeated_pairs nm times) p = Returns tt p' /\
    m_callStack p' = m_callStack p /\
    cursor_of p' = cursor_of p /\
    node_at (cursor_of p) (root_of p') =
      Some cur' /\
    children cur' =
      (children cur ++
       [mkNode nm {| callerName := nm;
                     totalTime := elapsed_sum times;
                     callCount := Z.of_nat (List.length times) |} []])%list /\
    List.length (filter (fun c => String.eqb (name c) nm) (children cur'))
      = 1%nat.
Proof.
  intros Hcur Habs Hn.
  assert (Hne : times <> []).
  { destruct times; [simpl in Hn; lia | discriminate]. }
  destruct (run_repeated_pairs_new nm times p cur Hcur Habs Hne)
    as [p' [Hrun [Hs [Hc Hnode]]]].
  rewrite wrap_int_in_range in Hnode by (unfold INT_MIN, INT_MAX in *; lia).
  eexists p', _.
  split; [exact Hrun|]. split; [exact Hs|]. split; [exact Hc|].
  split; [exact Hnode|]. split; [reflexivity|].
  cbn [children]. rewrite filter_app, (get_child_none_filter nm _ Habs).
  simpl. now rewrite String.eqb_refl.
Qed.

Lemma repeated_pairs_count_witness :
  exists p' cur',
    run (repeated_pairs "f" [(0, 1500000); (2000000, 2700000)]) new_profiler
      = Returns tt p' /\
    m_callStack p' = m_callStack new_profiler /\
    cursor_of p' = cursor_of new_profiler /\
    node_at (cursor_of new_profiler) (root_of p')
      = Some cur' /\
    children cur' =
      (children root_node ++
       [mkNode "f" {| callerName := "f";
                      totalTime :=
                        elapsed_sum [(0, 1500000); (2000000, 2700000)];
                      callCount := Z.of_nat 2 |} []])%list /\
    List.length (filter (fun c => String.eqb (name c) "f") (children cur'))
      = 1%nat.
Proof.
  apply (repeated_pairs_count "f" [(0, 1500000); (2000000, 2700000)]
           new_profiler root_node).
  - reflexivity.
  - reflexivity.
  - unfold INT_MAX. simpl. lia.
Defined.

(** C4 as stated fails for N = 2^31: the counter is an [int], and after 2^31
    pairs it does not hold 2^31. *)
Lemma repeated_pairs_count_overflow :
  exists p',
    run (repeated_pairs "f" (repeat (0, 0) (Z.to_nat 2147483648))) new_profiler
      = Returns tt p' /\
    option_map callCount (profile_at ["f"] p') = Some (-2147483648) /\
    option_map callCount (profile_at ["f"] p') <> Some 2147483648.
Proof.
  pose proof (Z2Nat.id 2147483648 ltac:(lia)) as Hn.
  remember (Z.to_nat 2147483648) as n eqn:En. clear En.
  assert (Hne : repeat ((0, 0) : time_point * time_point) n <> []).
  { destruct n; [simpl in Hn; lia | discriminate]. }
  destruct (run_repeated_pairs_new "f" (repeat (0, 0) n) new_profiler root_node
              eq_refl eq_refl Hne) as [p' [Hrun [_ [_ Hnode]]]].
  exists p'. split; [exact Hrun|].
  cbn [new_profiler m_radixTree new_tree m_current_node node_at] in Hnode.
  injection Hnode as Hroot.
  unfold profile_at. rewrite Hroot.
  cbn [root_node children name data app node_at get_child].
  rewrite repeat_length, Hn.
  change (String.eqb "f" "f") with true. cbn [option_map data callCount].
  change (wrap_int 2147483648) with (-2147483648).
  split; [reflexivity | discriminate].
Qed.

(* ------------------------------------------------------------------ *)
(** ** Which payloads a call can change *)

(** [start_caller] changes no payload: it only adds a node. *)
Lemma entered_root_keeps (nm : string) (cur : RadixTreeNode) (t : RadixTree) :
  node_at (m_current_node t) (m_root t) = Some cur ->
  payloads_kept (m_root t) (entered_root nm cur t).
Proof.
  intros Hcur path c Hc. unfold entered_root.
  destruct (get_child nm (children cur)) as [ch|] eqn:E; [eauto|].
  destruct (list_eq_dec string_dec path (m_current_node t)) as [->|Hne].
  - rewrite (node_at_update_same _ (add_child_name nm) _ _ _ Hcur).
    assert (c = cur) by congruence. subst c. eauto.
  - exact (node_at_update_other _ (add_child_name nm) (add_child_below nm)
             _ _ _ _ Hne Hc).
Qed.

(** [end_caller] changes the payload of the current node only. *)
Lemma completed_keeps_others (now : time_point) (top_info : CallerInfo)
  (cursor path : list string) (r c : RadixTreeNode) :
  path <> cursor ->
  node_at path r = Some c ->
  exists c',
    node_at path (update_at cursor (completed now top_info) r) = Some c' /\
    name c' = name c /\ data c' = data c.
Proof.
  intros Hne Hc.
  exact (node_at_update_other _ (completed_name now top_info)
           (completed_below now top_info) _ _ _ _ Hne Hc).
Qed.

Lemma payloads_kept_outside_refl base r : payloads_kept_outside base r r.
Proof. intros path c _ H. eauto. Qed.

Lemma payloads_kept_outside_trans base r1 r2 r3 :
  payloads_kept_outside base r1 r2 -> payloads_kept_outside base r2 r3 ->
  payloads_kept_outside base r1 r3.
Proof.
  intros H12 H23 path c Hnb Hc.
  destruct (H12 path c Hnb Hc) as [c2 [Hc2 [Hn2 Hd2]]].
  destruct (H23 path c2 Hnb Hc2) as [c3 [Hc3 [Hn3 Hd3]]].
  exists c3. repeat split; congruence.
Qed.

(** Calls made while [pending] starts are unmatched above a base position:
    they run to their end as long as every end has a start to match, they keep
    the cursor at or below the base and the stack on top of the base stack,
    and they change no payload at or outside of the base. *)
Lemma run_above_base (cs : list call) :
  forall (p : CallProfiler) (pending k : nat) (base ext : list string)
         (bstack estack : call_stack),
    cursor_valid p ->
    cursor_of p = (base ++ ext)%list ->
    List.length ext = pending ->
    m_callStack p = (estack ++ bstack)%list ->
    List.length estack = pending ->
    unmatched cs pending = Some k ->
    exists p' ext' estack',
      run cs p = Returns tt p' /\
      cursor_valid p' /\
      cursor_of p' = (base ++ ext')%list /\
      List.length ext' = k /\
      m_callStack p' = (estack' ++ bstack)%list /\
      List.length estack' = k /\
      payloads_kept_outside base (root_of p)
        (root_of p').
Proof.
  induction cs as [|c cs IH];
    intros p pending k base ext bstack estack Hv Hc Hle Hs Hls Hu.
  - simpl in Hu. injection Hu as <-.
    exists p, ext, estack. repeat split; auto.
    apply payloads_kept_outside_refl.
  - destruct c as [now nm | now]; simpl in Hu.
    + destruct Hv as [cur Hcur].
      pose proof (start_caller_returns now nm p cur Hcur) as Hstart.
      set (p1 := {| m_callStack :=
                      {| info_callerName := nm; startTime := now |}
                        :: m_callStack p;
                    m_radixTree :=
                      {| m_root := entered_root nm cur (m_radixTree p);
                         m_current_node :=
                           (cursor_of p ++ [nm])%list |} |})
        in *.
      destruct (IH p1 (S pending) k base (ext ++ [nm])%list bstack
                  ({| info_callerName := nm; startTime := now |} :: estack))
        as [p' [ext' [estack' [Hrun [Hv' [Hc' [Hle' [Hs' [Hls' Hk]]]]]]]]].
      * eexists. apply (entered_node nm cur (m_radixTree p) Hcur).
      * simpl. now rewrite Hc, app_assoc.
      * rewrite length_app. simpl. lia.
      * simpl. now rewrite Hs.
      * simpl. now rewrite Hls.
      * exact Hu.
      * exists p', ext', estack'.
        rewrite (run_cons (CStart now nm) cs p p1 Hstart).
        repeat split; auto.
        eapply payloads_kept_outside_trans; [|exact Hk].
        intros path c _ Hpc.
        exact (entered_root_keeps nm cur (m_radixTree p) Hcur path c Hpc).
    + destruct pending as [|pending']; [discriminate|].
      destruct estack as [|top_info rest]; [discriminate|].
      destruct (exists_last (l := ext)) as [ext0 [x Hext]].
      { intros ->. discriminate. }
      subst ext.
      destruct Hv as [cur Hcur].
      assert (Hne : cursor_of p <> []).
      { rewrite Hc, app_assoc. intros E. now apply app_eq_nil in E as [_ E]. }
      pose proof (end_caller_returns now p top_info (rest ++ bstack)%list cur
                    Hs Hcur Hne) as Hend.
      set (p1 := {| m_callStack := (rest ++ bstack)%list;
                    m_radixTree :=
                      {| m_root :=
                           update_at (cursor_of p)
                             (completed now top_info) (root_of p);
                         m_current_node :=
                           removelast (cursor_of p) |} |})
        in *.
      assert (Hcur1 : cursor_of p1 = (base ++ ext0)%list).
      { simpl. now rewrite Hc, app_assoc, removelast_last. }
      assert (Hneq : (base ++ ext0)%list <> cursor_of p).
      { rewrite Hc, app_assoc. intros E.
        apply (f_equal (@List.length string)) in E.
        rewrite (length_app (base ++ ext0)) in E. simpl in E. lia. }
      destruct (IH p1 pending' k base ext0 bstack rest)
        as [p' [ext' [estack' [Hrun [Hv' [Hc' [Hle' [Hs' [Hls' Hk]]]]]]]]].
      * unfold cursor_valid. rewrite Hcur1.
        rewrite Hc, app_assoc in Hcur.
        destruct (node_at_prefix _ _ _ _ Hcur) as [par Hpar].
        destruct (completed_keeps_others now top_info
                    (cursor_of p) _ _ _ Hneq Hpar)
          as [c' [Hc'' _]].
        eauto.
      * exact Hcur1.
      * rewrite length_app in Hle. simpl in Hle. lia.
      * reflexivity.
      * simpl in Hls. lia.
      * exact Hu.
      * exists p', ext', estack'.
        rewrite (run_cons (CEnd now) cs p p1 Hend).
        repeat split; auto.
        eapply payloads_kept_outside_trans; [|exact Hk].
        intros path c Hnb Hpc.
        apply completed_keeps_others; [|exact Hpc].
        intros ->. apply Hnb.
        exists (ext0 ++ [x])%list. split; [|exact Hc].
        intros E. now apply app_eq_nil in E as [_ E].
Qed.

Lemma not_below_self (base : list string) : ~ below base base.
Proof.
  intros [ext [Hne E]].
  rewrite <- (app_nil_r base) in E at 1.
  apply app_inv_head in E. congruence.
Qed.

(** A balanced sequence run from any position: the stack and the cursor come
    back to where they were, and every payload at or outside of that position
    is as before. *)
Lemma run_balanced_inner (mid : list call) (p : CallProfiler) :
  cursor_valid p ->
  balanced mid ->
  exists p',
    run mid p = Returns tt p' /\
    cursor_valid p' /\
    cursor_of p' = cursor_of p /\
    m_callStack p' = m_callStack p /\
    payloads_kept_outside (cursor_of p)
      (root_of p) (root_of p').
Proof.
  intros Hv Hb.
  destruct (run_above_base mid p 0%nat 0%nat (cursor_of p) []
              (m_callStack p) [] Hv)
    as [p' [ext' [estack' [Hrun [Hv' [Hc' [Hle' [Hs' [Hls' Hk]]]]]]]]];
    try reflexivity; try exact Hb.
  { now rewrite app_nil_r. }
  apply length_zero_iff_nil in Hle', Hls'. subst ext' estack'.
  rewrite app_nil_r in Hc'. simpl in Hs'.
  exists p'. repeat split; auto.
Qed.

(** A start, the calls nested in it, and the end that matches it. *)
Lemma matching_pair_returns (t0 t1 : time_point) (nm : string)
  (mid : list call) (p : CallProfiler) (cur : RadixTreeNode) :
  node_at (cursor_of p) (root_of p) = Some cur ->
  balanced mid ->
  exists p' c,
    run (CStart t0 nm :: mid ++ [CEnd t1]) p = Returns tt p' /\
    m_callStack p' = m_callStack p /\
    cursor_of p' = cursor_of p /\
    data c = data (entered_child nm cur) /\
    node_at (cursor_of p ++ [nm])%list
      (root_of p') =
    Some (completed t1 {| info_callerName := nm; startTime := t0 |} c).
Proof.
  intros Hcur Hb.
  pose proof (start_caller_returns t0 nm p cur Hcur) as Hstart.
  set (p1 := {| m_callStack :=
                  {| info_callerName := nm; startTime := t0 |} :: m_callStack p;
                m_radixTree :=
                  {| m_root := entered_root nm cur (m_radixTree p);
                     m_current_node :=
                       (cursor_of p ++ [nm])%list |} |}) in *.
  pose proof (entered_node nm cur (m_radixTree p) Hcur) as Hchild.
  destruct (run_balanced_inner mid p1) as [p2 [Hmid [_ [Hc2 [Hs2 Hk]]]]].
  { eexists. exact Hchild. }
  { exact Hb. }
  destruct (Hk _ _ (not_below_self _) Hchild) as [c [Hc [_ Hd]]].
  simpl in Hc2, Hs2, Hc.
  assert (Hne : cursor_of p2 <> []).
  { rewrite Hc2. intros E. now apply app_eq_nil in E as [_ E]. }
  rewrite <- Hc2 in Hc.
  pose proof (end_caller_returns t1 p2 _ _ c Hs2 Hc Hne) as Hend.
  eexists _, c.
  split.
  { rewrite (run_cons (CStart t0 nm) _ p p1 Hstart).
    rewrite run_app. unfold bind at 1. rewrite Hmid.
    rewrite (run_cons (CEnd t1) [] p2 _ Hend). reflexivity. }
  simpl. rewrite Hc2, removelast_last.
  split; [reflexivity|]. split; [reflexivity|]. split; [exact Hd|].
  rewrite <- Hc2.
  apply node_at_update_same; [apply completed_name | exact Hc].
Qed.

(** C7.  For a start at clock reading [t0], any balanced sequence of calls
    nested in it, and the end at clock reading [t1] that matches it: the calls
    run to their end, and the payload of the entered node (the one found or
    created by the start) ends up with the cumulative time it had before plus
    one term, the tick difference [t1 - t0] divided by the ticks of a
    millisecond with the fraction cut off; its count has gone up by one.  The
    part of the difference that is cut off is less than a millisecond and is
    not carried over to later additions. *)
Theorem end_caller_adds_elapsed_milliseconds (t0 t1 : time_point)
  (nm : string) (mid : list call) (p : CallProfiler) (cur : RadixTreeNode) :
  node_at (cursor_of p) (root_of p) = Some cur ->
  balanced mid ->
  exists p',
    run (CStart t0 nm :: mid ++ [CEnd t1]) p = Returns tt p' /\
    profile_at (cursor_of p ++ [nm])%list p' =
      Some {| callerName := nm;
              totalTime := totalTime (data (entered_child nm cur))
                           + Z.quot (t1 - t0) 1000000;
              callCount :=
                wrap_int (callCount (data (entered_child nm cur)) + 1) |} /\
    t1 - t0 = 1000000 * Z.quot (t1 - t0) 1000000 + Z.rem (t1 - t0) 1000000 /\
    Z.abs (Z.rem (t1 - t0) 1000000) < 1000000 /\
    (t0 <= t1 ->
     0 <= Z.quot (t1 - t0) 1000000 /\
     1000000 * Z.quot (t1 - t0) 1000000 <= t1 - t0
       < 1000000 * (Z.quot (t1 - t0) 1000000 + 1)).
Proof.
  intros Hcur Hb.
  destruct (matching_pair_returns t0 t1 nm mid p cur Hcur Hb)
    as [p' [c [Hrun [_ [_ [Hd Hnode]]]]]].
  exists p'. split; [exact Hrun|]. split.
  { unfold profile_at. rewrite Hnode. simpl.
    unfold update_profile, duration_cast_milliseconds, ticks_per_millisecond.
    now rewrite Hd. }
  pose proof (Z.quot_rem' (t1 - t0) 1000000) as Hqr.
  pose proof (Z.rem_bound_abs (t1 - t0) 1000000 ltac:(lia)) as Hab.
  split; [exact Hqr|]. split; [simpl in Hab; lia|].
  intros Hle.
  pose proof (Z.rem_bound_pos (t1 - t0) 1000000 ltac:(lia) ltac:(lia)) as Hr.
  pose proof (Z.quot_pos (t1 - t0) 1000000 ltac:(lia) ltac:(lia)) as Hq.
  lia.
Qed.

Lemma end_caller_adds_elapsed_milliseconds_witness :
  exists p',
    run (CStart 0 "outer" :: [CStart 100 "inner"; CEnd 900] ++ [CEnd 2600000])
      new_profiler = Returns tt p' /\
    profile_at ([] ++ ["outer"])%list p' =
      Some {| callerName := "outer";
              totalTime := totalTime (data (entered_child "outer" root_node))
                           + Z.quot (2600000 - 0) 1000000;
              callCount :=
                wrap_int
                  (callCount (data (entered_child "outer" root_node)) + 1)
           |} /\
    2600000 - 0 =
      1000000 * Z.quot (2600000 - 0) 1000000 + Z.rem (2600000 - 0) 1000000 /\
    Z.abs (Z.rem (2600000 - 0) 1000000) < 1000000 /\
    (0 <= 2600000 ->
     0 <= Z.quot (2600000 - 0) 1000000 /\
     1000000 * Z.quot (2600000 - 0) 1000000 <= 2600000 - 0
       < 1000000 * (Z.quot (2600000 - 0) 1000000 + 1)).
Proof.
  apply (end_caller_adds_elapsed_milliseconds 0 2600000 "outer"
           [CStart 100 "inner"; CEnd 900] new_profiler root_node);
    reflexivity.
Defined.

(** The loss of the fraction across additions: two invocations of 0.6 ms each
    add up to 0 ms, one invocation of 1.2 ms to 1 ms. *)
Example fractions_are_not_carried :
  exists p2 p1,
    run [CStart 0 "f"; CEnd 600000; CStart 600000 "f"; CEnd 1200000]
      new_profiler
      = Returns tt p2 /\
    run [CStart 0 "f"; CEnd 1200000] new_profiler = Returns tt p1 /\
    option_map totalTime (profile_at ["f"] p2) = Some 0 /\
    option_map totalTime (profile_at ["f"] p1) = Some 1.
Proof.
  eexists _, _. repeat split; vm_compute; reflexivity.
Qed.

(* ------------------------------------------------------------------ *)
(** ** Cumulative time *)

Lemma duration_cast_nonneg (d : nanoseconds) :
  0 <= d -> 0 <= duration_cast_milliseconds d.
Proof.
  intros H. unfold duration_cast_milliseconds, ticks_per_millisecond.
  apply Z.quot_pos; lia.
Qed.

(** C6, as the code has it.  With the cursor on a node of the tree:
    - an [end_caller] whose clock reading is not before the reading stored by
      the matching start returns, leaves every node of the tree in place with
      a cumulative time that is not less than before, and changes no payload
      other than that of the current node;
    - a [start_caller] returns and changes no payload;
    - a node created by a start has cumulative time zero, and still has it
      after any calls that follow in which every end matches a later start,
      that is, as long as no [end_caller] has completed against it. *)
Theorem cumulative_time_monotone (p : CallProfiler) (cur : RadixTreeNode) :
  node_at (cursor_of p) (root_of p) = Some cur ->
  (forall now top_info rest,
     m_callStack p = top_info :: rest ->
     cursor_of p <> [] ->
     startTime top_info <= now ->
     exists p',
       end_caller now p = Returns tt p' /\
       forall path c,
         node_at path (root_of p) = Some c ->
         exists c',
           node_at path (root_of p') = Some c' /\
           totalTime (data c) <= totalTime (data c') /\
           (path <> cursor_of p -> data c' = data c)) /\
  (forall now nm,
     exists p',
       start_caller now nm p = Returns tt p' /\
       payloads_kept (root_of p) (root_of p')) /\
  (forall now nm later k,
     get_child nm (children cur) = None ->
     unmatched later 0 = Some k ->
     exists p',
       run (CStart now nm :: later) p = Returns tt p' /\
       option_map totalTime
         (profile_at (cursor_of p ++ [nm])%list p')
       = Some 0).
Proof.
  intros Hcur. split; [|split].
  - intros now top_info rest Hs Hne Hle.
    eexists. split.
    { apply (end_caller_returns now p top_info rest cur Hs Hcur Hne). }
    intros path c Hc. simpl.
    destruct (list_eq_dec string_dec path (cursor_of p))
      as [->|Hneq].
    + assert (c = cur) by congruence. subst c.
      rewrite (node_at_update_same _ (completed_name now top_info) _ _ _ Hcur).
      eexists. split; [reflexivity|]. split; [|congruence].
      simpl.
      pose proof (duration_cast_nonneg (now - startTime top_info) ltac:(lia)).
      lia.
    + destruct (completed_keeps_others now top_info _ _ _ _ Hneq Hc)
        as [c' [Hc' [_ Hd]]].
      exists c'. split; [exact Hc'|]. rewrite Hd. split; [lia | auto].
  - intros now nm.
    eexists. split; [apply (start_caller_returns now nm p cur Hcur)|].
    simpl. apply (entered_root_keeps nm cur (m_radixTree p) Hcur).
  - intros now nm later k Habs Hu.
    pose proof (start_caller_returns now nm p cur Hcur) as Hstart.
    set (p1 := {| m_callStack :=
                    {| info_callerName := nm; startTime := now |}
                      :: m_callStack p;
                  m_radixTree :=
                    {| m_root := entered_root nm cur (m_radixTree p);
                       m_current_node :=
                         (cursor_of p ++ [nm])%list |} |})
      in *.
    pose proof (entered_node nm cur (m_radixTree p) Hcur) as Hchild.
    destruct (run_above_base later p1 0%nat k
                (cursor_of p ++ [nm])%list []
                (m_callStack p1) [])
      as [p' [ext' [estack' [Hrun [_ [_ [_ [_ [_ Hk]]]]]]]]];
      try reflexivity; try exact Hu.
    { eexists. exact Hchild. }
    { simpl. now rewrite app_nil_r. }
    exists p'. split.
    { now rewrite (run_cons (CStart now nm) later p p1 Hstart). }
    destruct (Hk _ _ (not_below_self _) Hchild) as [c [Hc [_ Hd]]].
    unfold profile_at. rewrite Hc. simpl. rewrite Hd.
    unfold entered_child. now rewrite Habs.
Qed.

Lemma cumulative_time_monotone_witness :
  let p := {| m_callStack := [{| info_callerName := "f"; startTime := 10 |}];
              m_radixTree :=
                {| m_root := mkNode "" empty_profile
                     [mkNode "f" {| callerName := "f"; totalTime := 4;
                                    callCount := 1 |} []];
                   m_current_node := ["f"] |} |} in
  (exists p',
     end_caller 3000010 p = Returns tt p' /\
     forall path c,
       node_at path (root_of p) = Some c ->
       exists c',
         node_at path (root_of p') = Some c' /\
         totalTime (data c) <= totalTime (data c') /\
         (path <> cursor_of p -> data c' = data c)) /\
  (exists p',
     run (CStart 20 "g" :: [CStart 30 "h"; CEnd 40; CStart 50 "k"]) p
       = Returns tt p' /\
     option_map totalTime
       (profile_at (cursor_of p ++ ["g"])%list p') = Some 0).
Proof.
  intros p.
  destruct (cumulative_time_monotone p
              (mkNode "f"
                 {| callerName := "f"; totalTime := 4; callCount := 1 |}
                 []) eq_refl) as [Hend [_ Hnew]].
  split.
  - apply (Hend 3000010 {| info_callerName := "f"; startTime := 10 |} []).
    + reflexivity.
    + discriminate.
    + simpl. lia.
  - apply (Hnew 20 "g" [CStart 30 "h"; CEnd 40; CStart 50 "k"] 1%nat);
      reflexivity.
Defined.

(** C6 as stated fails: the elapsed time is added with its sign, and the
    high-resolution clock may be set back.  After a first call of "f" that
    took 4 ms, a second call whose end reads the clock 3 ms before its start
    leaves "f" with 1 ms. *)
Lemma cumulative_time_can_decrease :
  exists p1 p2,
    run [CStart 0 "f"; CEnd 4000000] new_profiler = Returns tt p1 /\
    run [CStart 5000000 "f"; CEnd 2000000] p1 = Returns tt p2 /\
    option_map totalTime (profile_at ["f"] p1) = Some 4 /\
    option_map totalTime (profile_at ["f"] p2) = Some 1 /\
    ~ (forall t1 t2,
         option_map totalTime (profile_at ["f"] p1) = Some t1 ->
         option_map totalTime (profile_at ["f"] p2) = Some t2 ->
         t1 <= t2).
Proof.
  eexists _, _.
  split; [vm_compute; reflexivity|].
  split; [vm_compute; reflexivity|].
  split; [vm_compute; reflexivity|].
  split; [vm_compute; reflexivity|].
  intros H. specialize (H 4 1 eq_refl eq_refl). lia.
Qed.

(* ------------------------------------------------------------------ *)
(** ** One node per call path *)

Lemma end_caller_inversion (now : time_point) (p p' : CallProfiler) :
  end_caller now p = Returns tt p' ->
  exists top_info rest cur,
    m_callStack p = top_info :: rest /\
    node_at (cursor_of p) (root_of p) = Some cur /\
    cursor_of p <> [] /\
    root_of p' =
      update_at (cursor_of p) (completed now top_info)
        (root_of p).
Proof.
  intros H.
  destruct (m_callStack p) as [|top_info rest] eqn:Hs.
  { rewrite (end_caller_empty_stack now p Hs) in H. discriminate. }
  destruct (node_at (cursor_of p) (root_of p))
    as [cur|] eqn:Hcur.
  2:{ unfold end_caller, bind, on_stack, on_tree, on_member, top,
        update_current_data, bind, get_current_node in H.
      simpl in H. rewrite Hs in H. simpl in H. rewrite Hcur in H.
      discriminate. }
  assert (Hne : cursor_of p <> []).
  { intros Hc.
    unfold end_caller, bind, on_stack, on_tree, on_member, top, pop,
      update_current_data, bind, get_current_node, move_current_to_parent in H.
    simpl in H. rewrite Hs in H. simpl in H. rewrite Hcur in H. simpl in H.
    rewrite Hc in H. discriminate. }
  exists top_info, rest, cur.
  split; [reflexivity|]. split; [reflexivity|]. split; [exact Hne|].
  rewrite (end_caller_returns now p top_info rest cur Hs Hcur Hne) in H.
  now injection H as <-.
Qed.

(** Unfolds the member functions on a profiler whose state is given in full;
    the comparisons of names that are variables are left for rewriting. *)
Ltac step_profiler :=
  cbv [run do_call start_caller end_caller bind ret on_stack on_tree on_member
       push top pop entry get_current_node update_current_data
       move_current_to_parent new_profiler new_tree root_node
       m_callStack m_radixTree m_root m_current_node
       node_at get_child update_at update_child add_child set_data
       name data children app removelast
       info_callerName startTime update_profile
       callerName totalTime callCount empty_profile].

(** C3.  The callee B entered under A (twice) and under a different caller C
    (once), on a fresh profiler: the tree holds one node B below A and another
    node B below C; the first has count 2 and the time of its two invocations,
    the second count 1 and the time of its one invocation.  Likewise two
    different callees B and C entered under the same caller A get one child of
    A each.  In general a start enters the child of that name of the current
    node, found among the children of the current node or created there, so
    that the node entered is designated by the whole path of names; and a
    completed call changes the payload of the node at the cursor and of no
    other node. *)
Theorem same_name_under_different_parents
  (A B C : string) (t1 t2 t3 t4 t5 t6 t7 t8 t9 t10 : time_point) :
  A <> C ->
  run [CStart t1 A; CStart t2 B; CEnd t3; CStart t4 B; CEnd t5; CEnd t6;
       CStart t7 C; CStart t8 B; CEnd t9; CEnd t10] new_profiler =
  Returns tt
    {| m_callStack := [];
       m_radixTree :=
         {| m_root :=
              mkNode "" empty_profile
                [mkNode A {| callerName := A;
                             totalTime := duration_cast_milliseconds (t6 - t1);
                             callCount := 1 |}
                   [mkNode B {| callerName := B;
                                totalTime :=
                                  duration_cast_milliseconds (t3 - t2)
                                  + duration_cast_milliseconds (t5 - t4);
                                callCount := 2 |} []];
                 mkNode C {| callerName := C;
                             totalTime := duration_cast_milliseconds (t10 - t7);
                             callCount := 1 |}
                   [mkNode B {| callerName := B;
                                totalTime :=
                                  duration_cast_milliseconds (t9 - t8);
                                callCount := 1 |} []]];
            m_current_node := [] |} |} /\
  (B <> C ->
   run [CStart t1 A; CStart t2 B; CEnd t3; CStart t4 C; CEnd t5; CEnd t6]
     new_profiler =
   Returns tt
     {| m_callStack := [];
        m_radixTree :=
          {| m_root :=
               mkNode "" empty_profile
                 [mkNode A {| callerName := A;
                              totalTime := duration_cast_milliseconds (t6 - t1);
                              callCount := 1 |}
                    [mkNode B {| callerName := B;
                                 totalTime :=
                                   duration_cast_milliseconds (t3 - t2);
                                 callCount := 1 |} [];
                     mkNode C {| callerName := C;
                                 totalTime :=
                                   duration_cast_milliseconds (t5 - t4);
                                 callCount := 1 |} []]];
             m_current_node := [] |} |}) /\
  (forall now nm p cur,
     node_at (cursor_of p) (root_of p) = Some cur ->
     exists p',
       start_caller now nm p = Returns tt p' /\
       cursor_of p' = (cursor_of p ++ [nm])%list /\
       node_at (cursor_of p') (root_of p') = Some (entered_child nm cur)) /\
  (forall now p p',
     end_caller now p = Returns tt p' ->
     forall path c,
       path <> cursor_of p ->
       node_at path (root_of p) = Some c ->
       exists c',
         node_at path (root_of p') = Some c' /\
         name c' = name c /\ data c' = data c).
Proof.
  intros HAC.
  assert (EAC : String.eqb A C = false) by now apply String.eqb_neq.
  split; [|split; [|split]].
  - repeat (step_profiler; rewrite ?String.eqb_refl, ?EAC). reflexivity.
  - intros HBC.
    assert (EBC : String.eqb B C = false) by now apply String.eqb_neq.
    repeat (step_profiler; rewrite ?String.eqb_refl, ?EBC). reflexivity.
  - intros now nm p cur Hcur.
    eexists. split; [apply (start_caller_returns now nm p cur Hcur)|].
    split; [reflexivity|].
    apply (entered_node nm cur (m_radixTree p) Hcur).
  - intros now p p' Hend path c Hne Hc.
    destruct (end_caller_inversion now p p' Hend)
      as [top_info [rest [cur [_ [_ [_ Hroot]]]]]].
    rewrite Hroot.
    now apply completed_keeps_others.
Qed.

Lemma same_name_under_different_parents_witness :
  run [CStart 0 "A"; CStart 1000000 "B"; CEnd 2000000; CStart 3000000 "B";
       CEnd 5000000; CEnd 6000000;
       CStart 7000000 "C"; CStart 8000000 "B"; CEnd 8500000; CEnd 9000000]
    new_profiler =
  Returns tt
    {| m_callStack := [];
       m_radixTree :=
         {| m_root :=
              mkNode "" empty_profile
                [mkNode "A" {| callerName := "A"; totalTime := 6;
                               callCount := 1 |}
                   [mkNode "B" {| callerName := "B"; totalTime := 3;
                                  callCount := 2 |} []];
                 mkNode "C" {| callerName := "C"; totalTime := 2;
                               callCount := 1 |}
                   [mkNode "B" {| callerName := "B"; totalTime := 0;
                                  callCount := 1 |} []]];
            m_current_node := [] |} |}.
Proof.
  apply (same_name_under_different_parents "A" "B" "C"
           0 1000000 2000000 3000000 5000000 6000000
           7000000 8000000 8500000 9000000).
  discriminate.
Defined.

(* ------------------------------------------------------------------ *)
(** ** The scenarios of the design document *)

(** start("outer"); start("inner"); end(); end(); print. *)
Example report_outer_inner :
  exists p,
    run [CStart 0 "outer"; CStart 1000000 "inner"; CEnd 3500000; CEnd 9000000]
      new_profiler = Returns tt p /\
    print_profiling_result p "" =
    Returns tt ("Profiling Result" ++ endl ++
                "  outer - Total Time: 9 ms, Call Count: 1" ++ endl ++
                "    inner - Total Time: 2 ms, Call Count: 1" ++ endl).
Proof.
  eexists. split; vm_compute; reflexivity.
Qed.

(** start("f"); end(); start("f"); end(); print. *)
Example report_f_twice :
  exists p,
    run [CStart 0 "f"; CEnd 1000000; CStart 2000000 "f"; CEnd 4000000]
      new_profiler = Returns tt p /\
    print_profiling_result p "" =
    Returns tt ("Profiling Result" ++ endl ++
                "  f - Total Time: 3 ms, Call Count: 2" ++ endl).
Proof.
  eexists. split; vm_compute; reflexivity.
Qed.

(** start("f"); end(); end(): the second end finds the stack empty. *)
Example second_end_undefined :
  run [CStart 0 "f"; CEnd 1000000; CEnd 2000000] new_profiler = Undefined.
Proof.
  vm_compute. reflexivity.
Qed.

(* ================================================================== *)
(** * Further properties of BufferExpander *)

Lemma list_store_length {A : Type} (n : nat) (v : A) (l : list A) :
  List.length (list_store n v l) = List.length l.
Proof.
  revert n; induction l as [|x l IH]; intros [|k]; simpl; auto.
Qed.

Lemma list_store_same {A : Type} (n : nat) (v : A) (l : list A) :
  (n < List.length l)%nat -> nth_error (list_store n v l) n = Some v.
Proof.
  revert n; induction l as [|x l IH]; intros [|k] H; simpl in *;
    try lia; [reflexivity | apply IH; lia].
Qed.

Lemma list_store_other {A : Type} (n m : nat) (v : A) (l : list A) :
  m <> n -> nth_error (list_store n v l) m = nth_error l m.
Proof.
  revert n m; induction l as [|x l IH]; intros [|k] [|j] H; simpl;
    try reflexivity; try congruence.
  apply IH. congruence.
Qed.

Lemma at_in_range (b : BufferExpander) (it : Z) :
  it < size b -> at_ it b = data_at it b.
Proof.
  intros H. unfold at_, bind, validate_range.
  destruct (size b <=? it)%Z eqn:E; [apply Z.leb_le in E; lia | reflexivity].
Qed.

Lemma data_at_in_block (b : BufferExpander) (it : Z) :
  0 <= it < Z.of_nat (List.length (storage b)) ->
  exists v, data_at it b = Returns v b /\
            nth_error (storage b) (Z.to_nat it) = Some v.
Proof.
  intros H. unfold data_at.
  destruct (nth_error (storage b) (Z.to_nat it)) as [v|] eqn:E; [eauto|].
  apply nth_error_None in E. lia.
Qed.

Lemma at_returns_in_range (b s : BufferExpander) (j x : Z) :
  at_ j b = Returns x s -> j < size b /\ data_at j b = Returns x s.
Proof.
  unfold at_, bind, validate_range. intros H.
  destruct (size b <=? j)%Z eqn:E; [discriminate|].
  apply Z.leb_gt in E. auto.
Qed.

(** X1.  Whenever the checked access [at(it)] returns a byte, the index is
    below the size, the buffer is as before, and the unchecked [operator[]]
    returns the same byte. *)
Theorem at_returns_what_subscript_returns (b s : BufferExpander) (it v : Z) :
  at_ it b = Returns v s ->
  it < size b /\ s = b /\ subscript it b = Returns v b.
Proof.
  unfold at_, bind, validate_range, subscript. intros H.
  destruct (size b <=? it)%Z eqn:E; [discriminate|].
  apply Z.leb_gt in E. split; [exact E|].
  unfold data_at in *.
  destruct (nth_error (storage b) (Z.to_nat it)); [|discriminate].
  injection H as <- <-. auto.
Qed.

Lemma at_returns_what_subscript_returns_witness :
  let b := {| storage := [7; -3; 12; 0]; m_begin := 64; m_end := 67;
              m_end_cap := 68 |} in
  2 < size b /\ b = b /\ subscript 2 b = Returns 12 b.
Proof.
  intros b.
  apply (at_returns_what_subscript_returns b b 2 12). reflexivity.
Defined.

(** X2.  [operator[]] does not look at the size: for a buffer that satisfies
    its invariant and an index from the size up to the capacity, where [at]
    throws [std::out_of_range], [operator[]] returns the byte of the block at
    that index. *)
Theorem subscript_is_unchecked (b : BufferExpander) (it : Z) :
  buffer_wf b ->
  size b <= it < capacity b ->
  (exists v, subscript it b = Returns v b /\
             nth_error (storage b) (Z.to_nat it) = Some v) /\
  at_ it b = Throws (out_of_range (out_of_bounds_message it (size b))) b.
Proof.
  intros Hwf [Hlo Hhi].
  destruct (size_of_wf b Hwf) as [Hsz _].
  pose proof Hwf as (H0 & H1 & H2 & H3 & H4).
  assert (Hcap : capacity b = m_end_cap b - m_begin b).
  { unfold capacity, wrap_size_t, SIZE_WIDTH in *. apply Z.mod_small. lia. }
  split.
  - apply data_at_in_block. lia.
  - unfold at_, bind, validate_range.
    destruct (size b <=? it)%Z eqn:E; [reflexivity|].
    apply Z.leb_gt in E. lia.
Qed.

Lemma subscript_is_unchecked_witness :
  let b := {| storage := [7; -3; 12; 0]; m_begin := 64; m_end := 67;
              m_end_cap := 68 |} in
  (exists v, subscript 3 b = Returns v b /\
             nth_error (storage b) (Z.to_nat 3) = Some v) /\
  at_ 3 b = Throws (out_of_range (out_of_bounds_message 3 (size b))) b.
Proof.
  intros b. apply (subscript_is_unchecked b 3).
  - unfold buffer_wf, SIZE_WIDTH; simpl. lia.
  - vm_compute. split; [discriminate | reflexivity].
Defined.

Lemma to_int8_in_range (v : Z) : -128 <= v <= 127 -> to_int8 v = v.
Proof.
  intros H. unfold to_int8. rewrite Z.mod_small by lia. lia.
Qed.

Lemma to_int8_bounds (v : Z) : -128 <= to_int8 v <= 127.
Proof.
  unfold to_int8.
  pose proof (Z.mod_pos_bound (v + 128) 256 ltac:(lia)). lia.
Qed.

(** X3.  For a buffer that satisfies its invariant and an index below the
    size, the assignment [b.at(it) = v] returns; afterwards [at(it)] returns
    [v] converted to [int8_t], which is [v] itself when [v] lies in
    -128 .. 127 and is in -128 .. 127 in any case; [at] of every other index
    below the size returns what it returned before, and pointers, size,
    capacity and invariant are as before. *)
Theorem at_assign_then_at (b : BufferExpander) (it v : Z) :
  buffer_wf b ->
  0 <= it < size b ->
  exists b',
    at_assign it v b = Returns tt b' /\
    at_ it b' = Returns (to_int8 v) b' /\
    -128 <= to_int8 v <= 127 /\
    (-128 <= v <= 127 -> at_ it b' = Returns v b') /\
    (forall j x, 0 <= j -> j <> it ->
       at_ j b = Returns x b -> at_ j b' = Returns x b') /\
    buffer_wf b' /\ size b' = size b /\ capacity b' = capacity b /\
    m_begin b' = m_begin b.
Proof.
  intros Hwf [Hlo Hhi].
  destruct (size_of_wf b Hwf) as [Hsz Hle].
  assert (Hn : (Z.to_nat it < List.length (storage b))%nat) by lia.
  set (b' := {| storage := list_store (Z.to_nat it) (to_int8 v) (storage b);
                m_begin := m_begin b; m_end := m_end b;
                m_end_cap := m_end_cap b |}).
  assert (Hassign : at_assign it v b = Returns tt b').
  { unfold at_assign, bind, validate_range, data_assign.
    destruct (size b <=? it)%Z eqn:E; [apply Z.leb_le in E; lia|].
    destruct (nth_error (storage b) (Z.to_nat it)) eqn:En; [reflexivity|].
    apply nth_error_None in En. lia. }
  assert (Hsize : size b' = size b) by reflexivity.
  assert (Hread : at_ it b' = Returns (to_int8 v) b').
  { rewrite at_in_range by (rewrite Hsize; exact Hhi).
    unfold data_at. simpl storage.
    now rewrite (list_store_same _ (to_int8 v) _ Hn). }
  exists b'. split; [exact Hassign|]. split; [exact Hread|].
  split; [apply to_int8_bounds|]. split; [|split].
  - intros Hv. rewrite Hread. now rewrite (to_int8_in_range v Hv).
  - intros j x Hj Hne Hat.
    destruct (at_returns_in_range b b j x Hat) as [Hjs Hdata].
    rewrite at_in_range by (rewrite Hsize; exact Hjs).
    unfold data_at in *. simpl storage.
    rewrite list_store_other by lia.
    destruct (nth_error (storage b) (Z.to_nat j)); [|discriminate].
    now injection Hdata as ->.
  - split; [|repeat split; reflexivity].
    destruct Hwf as (H0 & H1 & H2 & H3 & H4).
    unfold buffer_wf, b'. simpl. rewrite list_store_length. auto.
Qed.

Lemma at_assign_then_at_witness :
  let b := {| storage := [7; -3; 12; 0]; m_begin := 64; m_end := 67;
              m_end_cap := 68 |} in
  exists b',
    at_assign 1 200 b = Returns tt b' /\
    at_ 1 b' = Returns (to_int8 200) b' /\
    -128 <= to_int8 200 <= 127 /\
    (-128 <= 200 <= 127 -> at_ 1 b' = Returns 200 b') /\
    (forall j x, 0 <= j -> j <> 1 ->
       at_ j b = Returns x b -> at_ j b' = Returns x b') /\
    buffer_wf b' /\ size b' = size b /\ capacity b' = capacity b /\
    m_begin b' = m_begin b.
Proof.
  intros b. apply (at_assign_then_at b 1 200).
  - unfold buffer_wf, SIZE_WIDTH; simpl. lia.
  - vm_compute. split; [discriminate | reflexivity].
Defined.

(** The value 200 does not fit an [int8_t]: it is read back as -56. *)
Example at_assign_converts_to_int8 :
  let b := {| storage := [7; -3; 12; 0]; m_begin := 64; m_end := 67;
              m_end_cap := 68 |} in
  (at_assign 1 200 ;;; at_ 1)%member b =
  Returns (-56) {| storage := [7; -56; 12; 0]; m_begin := 64; m_end := 67;
                   m_end_cap := 68 |}.
Proof. vm_compute. reflexivity. Qed.

(** X4.  With an index that is not below the size, the assignment
    [b.at(it) = v] throws [std::out_of_range] before anything is written: the
    buffer is as before. *)
Theorem at_assign_out_of_range (b : BufferExpander) (it v : Z) :
  size b <= it ->
  at_assign it v b =
  Throws (out_of_range (out_of_bounds_message it (size b))) b /\
  forall w, at_assign it v b <> Returns tt w.
Proof.
  intros H.
  assert (E : at_assign it v b =
              Throws (out_of_range (out_of_bounds_message it (size b))) b).
  { unfold at_assign, bind, validate_range.
    destruct (size b <=? it)%Z eqn:E; [reflexivity|].
    apply Z.leb_gt in E. lia. }
  split; [exact E|]. intros w. rewrite E. discriminate.
Qed.

Lemma at_assign_out_of_range_witness :
  at_assign 5 1 null_buffer =
  Throws (out_of_range (out_of_bounds_message 5 (size null_buffer)))
    null_buffer /\
  forall w, at_assign 5 1 null_buffer <> Returns tt w.
Proof.
  apply (at_assign_out_of_range null_buffer 5 1). vm_compute. discriminate.
Defined.

(** X5.  Whatever [reserve] does, when it returns, [expand(length)] returns
    with [size()] equal to [length] and with the begin of the block, the
    capacity and the block as [reserve] left them; when [reserve] throws,
    [expand] throws the same and moves no pointer. *)
Theorem expand_sets_size (reserve : Z -> M BufferExpander unit)
  (length : Z) (b b1 : BufferExpander) :
  0 <= length < SIZE_WIDTH ->
  (reserve length b = Returns tt b1 ->
   exists b',
     expand reserve length b = Returns tt b' /\
     size b' = length /\
     m_begin b' = m_begin b1 /\ capacity b' = capacity b1 /\
     storage b' = storage b1) /\
  (forall e, reserve length b = Throws e b1 ->
     expand reserve length b = Throws e b1).
Proof.
  intros Hlen. split.
  - intros Hr. unfold expand, bind. rewrite Hr.
    eexists. split; [reflexivity|].
    repeat split. unfold size, wrap_size_t. simpl.
    replace (m_begin b1 + length - m_begin b1) with length by lia.
    apply Z.mod_small. exact Hlen.
  - intros e Hr. unfold expand, bind. now rewrite Hr.
Qed.

Lemma expand_sets_size_witness :
  let grow := fun (cap : Z) (b : BufferExpander) =>
    Returns tt {| storage := repeat 0 (Z.to_nat cap); m_begin := 4096;
                  m_end := 4096; m_end_cap := 4096 + cap |} in
  exists b',
    construct_nbyte grow 3 = Returns tt b' /\
    size b' = 3 /\
    m_begin b' = 4096 /\ capacity b' = 3 /\ storage b' = [0; 0; 0].
Proof.
  intros grow.
  destruct (expand_sets_size grow 3 null_buffer
              {| storage := repeat 0 (Z.to_nat 3); m_begin := 4096;
                 m_end := 4096; m_end_cap := 4096 + 3 |})
    as [H _]; [unfold SIZE_WIDTH; lia|].
  destruct (H eq_refl) as [b' [Hb' [Hs [Hm [Hc Hst]]]]].
  exists b'. repeat split; assumption.
Defined.

(* ================================================================== *)
(** * Further properties of the profiler *)

(* ------------------------------------------------------------------ *)
(** ** Which sequences of calls run *)

Lemma run_undefined (c : call) (cs : list call) (p : CallProfiler) :
  do_call c p = Undefined -> run (c :: cs) p = Undefined.
Proof. intros H. simpl. unfold bind. now rewrite H. Qed.

Lemma run_pending_some (cs : list call) :
  forall (p : CallProfiler) (s : call_stack),
    consistent p ->
    pending_calls cs (m_callStack p) = Some s ->
    exists p', run cs p = Returns tt p' /\ consistent p' /\ m_callStack p' = s.
Proof.
  induction cs as [|c cs IH]; intros p s Hp Hpend; simpl in Hpend.
  - injection Hpend as <-. now exists p.
  - destruct c as [now nm | now].
    + destruct (start_caller_consistent now nm p Hp) as [p1 [H1 [Hp1 Hs1]]].
      rewrite (run_cons (CStart now nm) cs p p1 H1).
      apply IH; [exact Hp1 | now rewrite Hs1].
    + destruct (m_callStack p) as [|top_info rest] eqn:Hs; [discriminate|].
      destruct (end_caller_consistent now p top_info rest Hp Hs)
        as [p1 [H1 [Hp1 Hs1]]].
      rewrite (run_cons (CEnd now) cs p p1 H1).
      apply IH; [exact Hp1 | now rewrite Hs1].
Qed.

Lemma run_pending_none (cs : list call) :
  forall (p : CallProfiler),
    consistent p ->
    pending_calls cs (m_callStack p) = None ->
    run cs p = Undefined.
Proof.
  induction cs as [|c cs IH]; intros p Hp Hpend; simpl in Hpend.
  - discriminate.
  - destruct c as [now nm | now].
    + destruct (start_caller_consistent now nm p Hp) as [p1 [H1 [Hp1 Hs1]]].
      rewrite (run_cons (CStart now nm) cs p p1 H1).
      apply IH; [exact Hp1 | now rewrite Hs1].
    + destruct (m_callStack p) as [|top_info rest] eqn:Hs.
      * apply run_undefined. simpl. now apply end_caller_empty_stack.
      * destruct (end_caller_consistent now p top_info rest Hp Hs)
          as [p1 [H1 [Hp1 Hs1]]].
        rewrite (run_cons (CEnd now) cs p p1 H1).
        apply IH; [exact Hp1 | now rewrite Hs1].
Qed.

(** X6.  On a profiler whose stack and cursor are in lock-step, a sequence of
    [start_caller] and [end_caller] calls runs to its end exactly when no end
    finds the stack empty; otherwise its behaviour is undefined.  When it runs
    to its end, the stack holds the starts still unmatched, the most recent on
    top, each with the clock reading of its start, and the cursor path is
    the names of these starts, the oldest first. *)
Theorem run_leaves_unmatched_starts (cs : list call) (p : CallProfiler) :
  consistent p ->
  (forall s, pending_calls cs (m_callStack p) = Some s ->
     exists p',
       run cs p = Returns tt p' /\
       m_callStack p' = s /\
       cursor_of p' = map info_callerName (rev s)) /\
  (pending_calls cs (m_callStack p) = None -> run cs p = Undefined) /\
  (forall p', run cs p = Returns tt p' ->
     pending_calls cs (m_callStack p) = Some (m_callStack p')).
Proof.
  intros Hp. split; [|split].
  - intros s Hs.
    destruct (run_pending_some cs p s Hp Hs) as [p' [Hrun [[_ Hls] Hst]]].
    exists p'. split; [exact Hrun|]. split; [exact Hst|].
    unfold lock_step in Hls. now rewrite <- Hls, Hst.
  - apply run_pending_none. exact Hp.
  - intros p' Hrun.
    destruct (pending_calls cs (m_callStack p)) as [s|] eqn:Hs.
    + destruct (run_pending_some cs p s Hp Hs) as [q [Hq [_ Hst]]].
      congruence.
    + rewrite (run_pending_none cs p Hp Hs) in Hrun. discriminate.
Qed.

Lemma run_leaves_unmatched_starts_witness :
  exists p',
    run [CStart 10 "a"; CStart 20 "b"; CEnd 30; CStart 40 "c"] new_profiler
      = Returns tt p' /\
    m_callStack p' =
      [{| info_callerName := "c"; startTime := 40 |};
       {| info_callerName := "a"; startTime := 10 |}] /\
    cursor_of p' =
      map info_callerName
        (rev [{| info_callerName := "c"; startTime := 40 |};
              {| info_callerName := "a"; startTime := 10 |}]).
Proof.
  destruct (run_leaves_unmatched_starts
              [CStart 10 "a"; CStart 20 "b"; CEnd 30; CStart 40 "c"]
              new_profiler) as [H _].
  - split; [exists root_node; reflexivity | reflexivity].
  - apply H. reflexivity.
Defined.

(* ------------------------------------------------------------------ *)
(** ** Probes *)

Lemma unmatched_probe_calls (s : probe_scope) :
  forall k, unmatched (probe_calls s) k = Some k.
Proof.
  induction s as [nm t0 t1 body IH] using probe_scope_ind.
  intros k. cbn [probe_calls unmatched].
  rewrite unmatched_app.
  assert (Hbody : forall j, unmatched (flat_map probe_calls body) j = Some j).
  { induction IH as [|c body' Hc _ IHb]; intros j; [reflexivity|].
    cbn [flat_map]. now rewrite unmatched_app, Hc, IHb. }
  now rewrite Hbody.
Qed.

Lemma unmatched_probe_blocks (blocks : list probe_scope) :
  forall k, unmatched (flat_map probe_calls blocks) k = Some k.
Proof.
  induction blocks as [|s blocks IH]; intros k; [reflexivity|].
  cbn [flat_map]. now rewrite unmatched_app, unmatched_probe_calls, IH.
Qed.

(** X7.  Code that calls the profiler through probes alone: whatever blocks
    with probes run one after the other and inside each other, on a profiler
    whose cursor designates a node, all their calls return (no [end_caller]
    finds the stack empty); afterwards stack and cursor are as before, and
    every node that does not lie below the cursor is in place with the payload
    it had. *)
Theorem probes_restore_stack_and_cursor (blocks : list probe_scope)
  (p : CallProfiler) :
  cursor_valid p ->
  exists p',
    run (flat_map probe_calls blocks) p = Returns tt p' /\
    m_callStack p' = m_callStack p /\
    cursor_of p' = cursor_of p /\
    cursor_valid p' /\
    payloads_kept_outside (cursor_of p) (root_of p) (root_of p').
Proof.
  intros Hv.
  destruct (run_balanced_inner (flat_map probe_calls blocks) p Hv)
    as [p' [Hrun [Hv' [Hc [Hs Hk]]]]].
  { apply unmatched_probe_blocks. }
  exists p'. repeat split; assumption.
Qed.

Lemma probes_restore_stack_and_cursor_witness :
  exists p',
    run (flat_map probe_calls
           [Probe "f" 0 9000000 [Probe "g" 1000000 2000000 [];
                                 Probe "h" 3000000 8000000 []];
            Probe "f" 10000000 11000000 []]) new_profiler = Returns tt p' /\
    m_callStack p' = m_callStack new_profiler /\
    cursor_of p' = cursor_of new_profiler /\
    cursor_valid p' /\
    payloads_kept_outside (cursor_of new_profiler) (root_of new_profiler)
      (root_of p').
Proof.
  apply (probes_restore_stack_and_cursor _ new_profiler).
  exists root_node. reflexivity.
Defined.

(** X8.  [reset] followed by [end_caller] has undefined behaviour, whatever the
    profiler held; so has a probe whose block calls [reset]: the destructor's
    [end_caller] finds the stack empty. *)
Theorem end_caller_after_reset (p : CallProfiler) (t0 t1 : time_point)
  (nm : string) :
  (reset ;;; end_caller t1)%member p = Undefined /\
  (start_caller t0 nm ;;; reset ;;; end_caller t1)%member p = Undefined.
Proof.
  assert (Hreset : forall q, reset q = Returns tt new_profiler).
  { intros q. unfold reset, bind, on_stack, on_tree, on_member, tree_reset.
    simpl. now rewrite pop_while_not_empty_empty. }
  assert (Hend : (reset ;;; end_caller t1)%member p = Undefined
                 /\ forall q, (reset ;;; end_caller t1)%member q = Undefined).
  { split; intros; unfold bind; rewrite Hreset;
      now apply end_caller_empty_stack. }
  split; [apply Hend|].
  unfold bind at 1.
  destruct (start_caller t0 nm p) as [[] q|e q|] eqn:Hstart.
  - apply Hend.
  - exfalso.
    unfold start_caller, bind, on_stack, on_tree, on_member, push, entry,
      bind, get_current_node in Hstart. simpl in Hstart.
    destruct (node_at (cursor_of p) (root_of p)); discriminate.
  - reflexivity.
Qed.

(* ------------------------------------------------------------------ *)
(** ** Clock readings that are not in order *)



(* ------------------------------------------------------------------ *)
(** ** The names in the report *)

Lemma named_children (n : RadixTreeNode) :
  named n -> all_in named (children n).
Proof. destruct n as [nm d cs]. simpl. now intros [_ H]. Qed.

Lemma all_in_In {A : Type} (P : A -> Prop) (l : list A) (x : A) :
  all_in P l -> In x l -> P x.
Proof.
  induction l as [|y l IH]; simpl; [tauto|].
  intros [Hy Hl] [<-|Hin]; auto.
Qed.

Lemma kids_named_of_named (x : string) (cs : list RadixTreeNode) :
  all_in named cs -> kids_named x (named_off_path []) cs.
Proof.
  induction cs as [|c cs IH]; simpl; [trivial|].
  intros [Hc Hcs].
  destruct (String.eqb (name c) x).
  - split; [now apply named_children | exact Hcs].
  - split; [exact Hc | now apply IH].
Qed.

Lemma kids_named_appended (x : string) (P : RadixTreeNode -> Prop)
  (cs : list RadixTreeNode) (new : RadixTreeNode) :
  all_in named cs -> get_child x cs = None -> name new = x -> P new ->
  kids_named x P (cs ++ [new])%list.
Proof.
  intros Hcs Habs Hname Hnew.
  induction cs as [|c cs IH]; simpl in *.
  - rewrite Hname, String.eqb_refl. auto.
  - destruct (String.eqb (name c) x); [discriminate|].
    destruct Hcs as [Hc Hcs]. split; [exact Hc | now apply IH].
Qed.

Lemma kids_named_update (x : string) (P Q : RadixTreeNode -> Prop)
  (g : RadixTreeNode -> RadixTreeNode) (cs : list RadixTreeNode) :
  (forall c, name (g c) = name c) ->
  (forall c, get_child x cs = Some c -> P c -> Q (g c)) ->
  kids_named x P cs ->
  kids_named x Q (update_child x g cs).
Proof.
  intros Hname.
  induction cs as [|c cs IH]; simpl; [trivial|].
  intros Hstep Hk.
  destruct (String.eqb (name c) x) eqn:E; simpl.
  - rewrite Hname, E. destruct Hk as [Hp Hcs]. split; [|exact Hcs].
    now apply Hstep.
  - rewrite E. destruct Hk as [Hc Hcs]. split; [exact Hc|].
    now apply IH.
Qed.

Lemma kids_named_weaken (x : string) (P Q : RadixTreeNode -> Prop)
  (cs : list RadixTreeNode) :
  (forall c, get_child x cs = Some c -> P c -> Q c) ->
  kids_named x P cs ->
  kids_named x Q cs.
Proof.
  induction cs as [|c cs IH]; simpl; [trivial|].
  intros Hstep Hk.
  destruct (String.eqb (name c) x) eqn:E.
  - destruct Hk as [Hp Hcs]. split; [now apply Hstep | exact Hcs].
  - destruct Hk as [Hc Hcs]. split; [exact Hc | now apply IH].
Qed.

Lemma kids_named_completed (x : string)
  (g : RadixTreeNode -> RadixTreeNode) (cs : list RadixTreeNode) :
  (forall c, name c = x -> all_in named (children c) -> named (g c)) ->
  kids_named x (named_off_path []) cs ->
  all_in named (update_child x g cs).
Proof.
  intros Hg.
  induction cs as [|c cs IH]; simpl; [trivial|].
  intros Hk.
  destruct (String.eqb (name c) x) eqn:E; simpl.
  - destruct Hk as [Hp Hcs]. split; [|exact Hcs].
    apply Hg; [now apply String.eqb_eq | exact Hp].
  - destruct Hk as [Hc Hcs]. split; [exact Hc | now apply IH].
Qed.

Lemma kids_named_active (x : string) (P : RadixTreeNode -> Prop)
  (cs : list RadixTreeNode) (c : RadixTreeNode) :
  kids_named x P cs -> get_child x cs = Some c -> P c.
Proof.
  induction cs as [|y cs IH]; simpl; [discriminate|].
  destruct (String.eqb (name y) x).
  - intros [Hp _] [= <-]. exact Hp.
  - intros [_ Hk]. now apply IH.
Qed.

(** Entering a child that is there. *)
Lemma named_off_path_enter_found (nm : string) (path : list string) :
  forall (n cur c : RadixTreeNode),
    node_at path n = Some cur ->
    get_child nm (children cur) = Some c ->
    named_off_path path n ->
    named_off_path (path ++ [nm]) n.
Proof.
  induction path as [|x path IH]; intros n cur c Hcur Hfound Hn.
  - simpl in Hcur. injection Hcur as ->.
    simpl. now apply kids_named_of_named.
  - simpl in Hcur.
    destruct (get_child x (children n)) as [ch|] eqn:E; [|discriminate].
    change (kids_named x (named_off_path (path ++ [nm])) (children n)).
    apply (kids_named_weaken x (named_off_path path)); [|exact Hn].
    intros c0 Hc0 Hp. assert (c0 = ch) by congruence. subst c0.
    now apply (IH ch cur c).
Qed.

(** Entering a child that is created. *)
Lemma named_off_path_enter_new (nm : string) (path : list string) :
  forall (n cur : RadixTreeNode),
    node_at path n = Some cur ->
    get_child nm (children cur) = None ->
    named_off_path path n ->
    named_off_path (path ++ [nm]) (update_at path (add_child nm) n).
Proof.
  induction path as [|x path IH]; intros n cur Hcur Habs Hn.
  - simpl in Hcur. injection Hcur as <-.
    change (kids_named nm (named_off_path [])
              (children n ++ [mkNode nm empty_profile []])).
    apply kids_named_appended; [exact Hn | exact Habs | reflexivity|].
    exact I.
  - simpl in Hcur.
    destruct (get_child x (children n)) as [ch|] eqn:E; [|discriminate].
    change (kids_named x (named_off_path (path ++ [nm]))
              (update_child x (update_at path (add_child nm)) (children n))).
    apply (kids_named_update x (named_off_path path)); [| |exact Hn].
    + intros c0. apply update_at_name. apply add_child_name.
    + intros c0 Hc0 Hp. assert (c0 = ch) by congruence. subst c0.
      now apply (IH ch cur).
Qed.

(** Completing the call of the node at the end of the path, under the name of
    that node. *)
Lemma named_off_path_leave (now : time_point) (top_info : CallerInfo)
  (path : list string) :
  forall (n cur : RadixTreeNode),
    node_at (path ++ [info_callerName top_info]) n = Some cur ->
    named_off_path (path ++ [info_callerName top_info]) n ->
    named_off_path path
      (update_at (path ++ [info_callerName top_info])
         (completed now top_info) n).
Proof.
  induction path as [|x path IH]; intros n cur Hcur Hn.
  - change (all_in named
              (update_child (info_callerName top_info)
                 (update_at [] (completed now top_info)) (children n))).
    apply kids_named_completed; [|exact Hn].
    intros c Hname Hkids. destruct c as [cn cd ccs]. simpl in *.
    split; [now symmetry | exact Hkids].
  - simpl in Hcur.
    destruct (get_child x (children n)) as [ch|] eqn:E; [|discriminate].
    change (kids_named x (named_off_path path)
              (update_child x
                 (update_at (path ++ [info_callerName top_info])
                    (completed now top_info)) (children n))).
    apply (kids_named_update x
             (named_off_path (path ++ [info_callerName top_info])));
      [| |exact Hn].
    + intros c0. apply update_at_name. apply completed_name.
    + intros c0 Hc0 Hp. assert (c0 = ch) by congruence. subst c0.
      now apply (IH ch cur).
Qed.

Lemma named_below_cursor (path : list string) :
  forall (n cur : RadixTreeNode),
    node_at path n = Some cur -> named_off_path path n ->
    all_in named (children cur).
Proof.
  induction path as [|x path IH]; intros n cur Hcur Hn.
  - simpl in Hcur. now injection Hcur as <-.
  - simpl in Hcur.
    destruct (get_child x (children n)) as [ch|] eqn:E; [|discriminate].
    apply (IH ch cur Hcur).
    exact (kids_named_active x _ _ ch Hn E).
Qed.

Lemma named_preorder (n : RadixTreeNode) :
  named n ->
  forall depth e, In e (preorder n depth) ->
    callerName (data (snd e)) = name (snd e).
Proof.
  induction n as [nm d cs IH] using RadixTreeNode_ind.
  intros [Hd Hcs] depth e. cbn [preorder]. intros [<-|Hin]; [exact Hd|].
  apply in_flat_map in Hin as [c [Hc He]].
  rewrite Forall_forall in IH.
  apply (IH c Hc (all_in_In _ _ _ Hcs Hc) (S depth) e He).
Qed.

(** Along every sequence of calls that runs, the profiler stays consistent
    and the payloads off the path to the cursor keep the names of their
    nodes. *)
Lemma run_named_off_path (cs : list call) :
  forall (p p' : CallProfiler),
    consistent p ->
    named_off_path (cursor_of p) (root_of p) ->
    run cs p = Returns tt p' ->
    consistent p' /\ named_off_path (cursor_of p') (root_of p').
Proof.
  induction cs as [|c cs IH]; intros p p' Hp Hn Hrun.
  - simpl in Hrun. injection Hrun as <-. auto.
  - destruct c as [now nm | now].
    + destruct (start_caller_consistent now nm p Hp) as [p1 [H1 [Hp1 _]]].
      rewrite (run_cons (CStart now nm) cs p p1 H1) in Hrun.
      apply (IH p1 p' Hp1); [|exact Hrun].
      destruct Hp as [[cur Hcur] _].
      simpl in H1. rewrite (start_caller_returns now nm p cur Hcur) in H1.
      injection H1 as <-. simpl. unfold entered_root.
      destruct (get_child nm (children cur)) as [ch|] eqn:E.
      * now apply (named_off_path_enter_found nm _ _ cur ch).
      * now apply (named_off_path_enter_new nm _ _ cur).
    + destruct (m_callStack p) as [|top_info rest] eqn:Hs.
      { rewrite run_undefined in Hrun; [discriminate|].
        simpl. now apply end_caller_empty_stack. }
      destruct (end_caller_consistent now p top_info rest Hp Hs)
        as [p1 [H1 [Hp1 _]]].
      rewrite (run_cons (CEnd now) cs p p1 H1) in Hrun.
      apply (IH p1 p' Hp1); [|exact Hrun].
      destruct Hp as [[cur Hcur] Hls].
      pose proof (lock_step_top p top_info rest Hls Hs) as Hpath.
      assert (Hne : cursor_of p <> []).
      { rewrite Hpath. intros E. now apply app_eq_nil in E as [_ E]. }
      simpl in H1.
      rewrite (end_caller_returns now p top_info rest cur Hs Hcur Hne) in H1.
      injection H1 as <-. simpl.
      rewrite Hpath in *. rewrite removelast_last.
      now apply (named_off_path_leave now top_info _ _ cur).
Qed.

(** X10.  In every state that a sequence of [start_caller] and [end_caller]
    calls reaches from a fresh profiler, the node at the cursor is there, and
    every entry line of the report, that is every line but the header, is the
    line of a node whose payload carries the name of that node, the name
    under which the node was entered: the name that a line shows, which the
    printer reads from the payload, is the node's own. *)
Theorem report_lines_carry_node_names (cs : list call) (p' : CallProfiler) :
  run cs new_profiler = Returns tt p' ->
  exists cur,
    node_at (cursor_of p') (root_of p') = Some cur /\
    (forall os,
       print_profiling_result p' os = Returns tt (os ++ spec_report cur)) /\
    (forall e, In e (tl (preorder cur 0)) ->
       callerName (data (snd e)) = name (snd e) /\
       report_line e =
         indentation (fst e) ++ name (snd e) ++ " - Total Time: "
           ++ decimal (totalTime (data (snd e))) ++ " ms, Call Count: "
           ++ decimal (callCount (data (snd e))) ++ endl).
Proof.
  intros Hrun.
  destruct (run_named_off_path cs new_profiler p') as [[[cur Hcur] _] Hn].
  { apply consistent_at_rest; reflexivity. }
  { exact I. }
  { exact Hrun. }
  exists cur. split; [exact Hcur|]. split.
  - intros os. unfold print_profiling_result, get_current_node.
    rewrite Hcur. now rewrite print_is_preorder.
  - intros e He.
    pose proof (named_below_cursor _ _ cur Hcur Hn) as Hkids.
    destruct cur as [nm d kids]. cbn [preorder tl] in He. simpl in Hkids.
    apply in_flat_map in He as [c [Hc He]].
    pose proof (named_preorder c (all_in_In _ _ _ Hkids Hc) 1%nat e He)
      as Hname.
    split; [exact Hname|].
    pose proof (preorder_depths c 1%nat e He) as Hd.
    unfold report_line, profile_text.
    destruct (fst e) as [|k]; [lia|].
    rewrite Hname. now rewrite !append_assoc.
Qed.

Lemma report_lines_carry_node_names_witness :
  exists cur,
    node_at ["outer"]
      (mkNode "" empty_profile
         [mkNode "outer" empty_profile
            [mkNode "inner" {| callerName := "inner"; totalTime := 2;
                               callCount := 1 |} []]]) = Some cur /\
    (forall e, In e (tl (preorder cur 0)) ->
       callerName (data (snd e)) = name (snd e)).
Proof.
  destruct (report_lines_carry_node_names
              [CStart 0 "outer"; CStart 1000000 "inner"; CEnd 3000000]
              _ eq_refl) as [cur [Hcur [_ Hlines]]].
  exists cur. split; [exact Hcur|].
  intros e He. apply (Hlines e He).
Defined.

(* ------------------------------------------------------------------ *)
(** ** Cumulative times under a clock that does not go back *)

Lemma every_payload_get_child (Q : CallerProfile -> Prop) (nm : string)
  (cs : list RadixTreeNode) (c : RadixTreeNode) :
  all_in (every_payload Q) cs -> get_child nm cs = Some c ->
  every_payload Q c.
Proof.
  induction cs as [|x cs IH]; simpl; [discriminate|].
  intros [Hx Hcs]. destruct (String.eqb (name x) nm).
  - now intros [= <-].
  - now apply IH.
Qed.

Lemma every_payload_node_at (Q : CallerProfile -> Prop) (path : list string) :
  forall n c, every_payload Q n -> node_at path n = Some c ->
              every_payload Q c.
Proof.
  induction path as [|x path IH]; intros n c Hn Hc; simpl in Hc.
  - now injection Hc as <-.
  - destruct (get_child x (children n)) as [ch|] eqn:E; [|discriminate].
    apply (IH ch c); [|exact Hc].
    destruct n as [nm d cs]. destruct Hn as [_ Hcs].
    exact (every_payload_get_child Q x cs ch Hcs E).
Qed.

Lemma every_payload_update_child (Q : CallerProfile -> Prop) (nm : string)
  (g : RadixTreeNode -> RadixTreeNode) (cs : list RadixTreeNode) :
  (forall c, get_child nm cs = Some c -> every_payload Q c ->
             every_payload Q (g c)) ->
  all_in (every_payload Q) cs ->
  all_in (every_payload Q) (update_child nm g cs).
Proof.
  induction cs as [|x cs IH]; simpl; [trivial|].
  intros Hg [Hx Hcs].
  destruct (String.eqb (name x) nm) eqn:E; simpl.
  - split; [now apply Hg | exact Hcs].
  - split; [exact Hx | now apply IH].
Qed.

Lemma every_payload_update_at (Q : CallerProfile -> Prop)
  (f : RadixTreeNode -> RadixTreeNode) (path : list string) :
  forall n cur,
    node_at path n = Some cur ->
    (every_payload Q cur -> every_payload Q (f cur)) ->
    every_payload Q n ->
    every_payload Q (update_at path f n).
Proof.
  induction path as [|x path IH]; intros n cur Hcur Hf Hn; simpl in Hcur.
  - injection Hcur as <-. now apply Hf.
  - destruct (get_child x (children n)) as [ch|] eqn:E; [|discriminate].
    destruct n as [nm d cs]. destruct Hn as [Hd Hcs].
    simpl in E |- *. split; [exact Hd|].
    apply every_payload_update_child; [|exact Hcs].
    intros c Hc Hq. assert (c = ch) by congruence. subst c.
    now apply (IH ch cur).
Qed.

Lemma all_in_app {A : Type} (P : A -> Prop) (l1 l2 : list A) :
  all_in P l1 -> all_in P l2 -> all_in P (l1 ++ l2).
Proof.
  induction l1 as [|x l1 IH]; simpl; [auto|].
  intros [Hx Hl1] Hl2. split; [exact Hx | now apply IH].
Qed.

Lemma readings_ordered_weaken (cs : list call) (t t' : time_point) :
  t' <= t -> readings_ordered cs t -> readings_ordered cs t'.
Proof.
  destruct cs as [|c cs]; simpl; [trivial|]. intros Hle [H1 H2].
  split; [lia | exact H2].
Qed.

(** With readings in order, every run keeps all cumulative times at zero or
    above and all stored start readings at or before the last reading. *)
Lemma run_times_nonnegative (cs : list call) :
  forall (p p' : CallProfiler) (last : time_point),
    every_payload (fun d => 0 <= totalTime d) (root_of p) ->
    Forall (fun ci => startTime ci <= last) (m_callStack p) ->
    readings_ordered cs last ->
    run cs p = Returns tt p' ->
    every_payload (fun d => 0 <= totalTime d) (root_of p').
Proof.
  induction cs as [|c cs IH]; intros p p' last Hq Hst Hord Hrun.
  - simpl in Hrun. now injection Hrun as <-.
  - destruct Hord as [Hlast Hord].
    simpl in Hrun. unfold bind in Hrun.
    destruct (do_call c p) as [[] p1|e p1|] eqn:Hcall; try discriminate.
    apply (IH p1 p' (reading c)); [| |exact Hord|exact Hrun].
    + destruct c as [now nm | now]; simpl in Hcall.
      * unfold start_caller, bind, on_stack, on_tree, on_member, push, entry,
          bind, get_current_node in Hcall. simpl in Hcall.
        destruct (node_at (cursor_of p) (root_of p)) as [cur|] eqn:Hcur;
          [|discriminate].
        injection Hcall as <-. simpl.
        destruct (get_child nm (children cur)); [exact Hq|].
        apply (every_payload_update_at _ _ _ _ cur Hcur); [|exact Hq].
        destruct cur as [cn cd ccs]. simpl. intros [Hd Hcs].
        split; [exact Hd|]. apply all_in_app; [exact Hcs|].
        simpl. repeat split. lia.
      * destruct (end_caller_inversion now p p1 Hcall)
          as [top_info [rest [cur [Hs [Hcur [_ Hroot]]]]]].
        rewrite Hroot.
        apply (every_payload_update_at _ _ _ _ cur Hcur); [|exact Hq].
        destruct cur as [cn cd ccs]. simpl. intros [Hd Hcs].
        split; [|exact Hcs].
        rewrite Hs in Hst. apply Forall_inv in Hst. simpl in Hlast.
        pose proof (duration_cast_nonneg (now - startTime top_info)
                      ltac:(lia)).
        lia.
    + destruct c as [now nm | now]; simpl in Hcall, Hlast |- *.
      * unfold start_caller, bind, on_stack, on_tree, on_member, push, entry,
          bind, get_current_node in Hcall. simpl in Hcall.
        destruct (node_at (cursor_of p) (root_of p)) as [cur|];
          [|discriminate].
        injection Hcall as <-. simpl.
        constructor; [simpl; lia|].
        eapply Forall_impl; [|exact Hst]. simpl. intros ci Hci. lia.
      * destruct (m_callStack p) as [|top_info rest] eqn:Hs.
        { rewrite (end_caller_empty_stack now p Hs) in Hcall. discriminate. }
        unfold end_caller, bind, on_stack, on_tree, on_member, top, pop,
          update_current_data, bind, get_current_node,
          move_current_to_parent in Hcall.
        simpl in Hcall. rewrite Hs in Hcall. simpl in Hcall.
        destruct (node_at (cursor_of p) (root_of p)); [|discriminate].
        simpl in Hcall.
        destruct (cursor_of p); [discriminate|].
        injection Hcall as <-. simpl.
        apply Forall_inv_tail in Hst.
        eapply Forall_impl; [|exact Hst]. simpl. intros ci Hci. lia.
Qed.

(** X11.  When no call reads the clock earlier than the call before it, every
    cumulative time in the tree is zero or more in every state that a sequence
    of [start_caller] and [end_caller] calls reaches from a fresh profiler: no
    line of the report shows a negative time. *)
Theorem ordered_readings_keep_times_nonnegative (cs : list call)
  (first : time_point) (p' : CallProfiler) :
  readings_ordered cs first ->
  run cs new_profiler = Returns tt p' ->
  forall path c,
    node_at path (root_of p') = Some c -> 0 <= totalTime (data c).
Proof.
  intros Hord Hrun path c Hc.
  assert (Hall : every_payload (fun d => 0 <= totalTime d) (root_of p')).
  { apply (run_times_nonnegative cs new_profiler p' first);
      [|constructor|exact Hord|exact Hrun].
    simpl. split; [lia | exact I]. }
  pose proof (every_payload_node_at _ path _ c Hall Hc) as H.
  destruct c as [cn cd ccs]. now destruct H.
Qed.

Lemma ordered_readings_keep_times_nonnegative_witness :
  0 <= totalTime
         (data (mkNode "inner" {| callerName := "inner"; totalTime := 2;
                                  callCount := 1 |} [])).
Proof.
  apply (ordered_readings_keep_times_nonnegative
           [CStart 0 "outer"; CStart 1000000 "inner"; CEnd 3000000] 0
           _ ltac:(simpl; lia) eq_refl ["outer"; "inner"]).
  reflexivity.
Defined.
